(** * MPAGS cipher: the chunk-split / transform / recombine pipeline

    A shallow embedding of [Cipher::splitString] (Cipher.hpp) and of the
    multithreaded part of [main] (lines 124-160 of the driver), followed by
    the properties the specification states about them.  The whole of
    [main], with the command line, the streams and the exit codes, is
    module [Program]; the splitter, the polling and the whole program are
    then described in closed form.

    Conventions of the embedding.
    - [std::string] is [string]; [std::vector<std::string>] is [list string].
    - [int] values are integers of [Z].  Signed overflow is undefined in C++
      and is not part of the model: all [int] values that occur stay below
      twice the length of the text, so the model is exact for every text
      shorter than 2^30 characters.  C++ [/] and [%] truncate towards zero
      and are [Z.quot] and [Z.rem].
    - an [int] passed where [std::size_t] is expected is converted modulo
      2^64 ([to_size_t]).
    - a call either returns, throws [std::out_of_range], has undefined
      behaviour, or does not return within the fuel it is given
      ([outcome]).  A loop that never ends runs out of every fuel; on a
      machine the vector it fills grows until memory is exhausted.
    - the worker threads compute values that [main] never reads, but each
      reads [substrs[i]] through references to variables [main] goes on
      changing; what a worker finds in [i] when it runs ([race]) and the
      answers of [wait_for] ([schedule]) depend on how the threads are
      scheduled and are inputs of the model.  A worker that finds an index
      past the end of [substrs] has undefined behaviour: such a run is
      [Undefined], and in practice it is killed. *)

From Stdlib Require Import ZArith String Ascii List Bool Lia.
Import ListNotations.

Local Open Scope string_scope.
Local Open Scope list_scope.
Local Open Scope Z_scope.

(** ** Outcomes of a call *)

Inductive outcome (A : Type) : Type :=
| Returned (a : A)   (* normal return *)
| OutOfRange         (* std::out_of_range was thrown *)
| Undefined          (* undefined behaviour: division by zero, operator[] past the end *)
| OutOfFuel.         (* the loop was still running when the fuel ran out *)

Arguments Returned {A} a.
Arguments OutOfRange {A}.
Arguments Undefined {A}.
Arguments OutOfFuel {A}.

Definition bind {A B : Type} (m : outcome A) (k : A -> outcome B) : outcome B :=
  match m with
  | Returned a => k a
  | OutOfRange => OutOfRange
  | Undefined => Undefined
  | OutOfFuel => OutOfFuel
  end.

Notation "x <- m ;; k" := (bind m (fun x => k))
  (at level 61, m at next level, right associativity).

(** ** CipherMode.hpp, CipherType.hpp: the two enumerations *)

Inductive CipherMode : Type := Encrypt | Decrypt.

Inductive CipherType : Type := Caesar | Playfair | Vigenere.

(** ** Cipher.hpp *)

(** The abstract base class: one pure virtual member, [applyCipher]. *)
Class Cipher (C : Type) : Type :=
  { applyCipher : C -> string -> CipherMode -> string }.

(** Conversion of an [int] argument to [std::size_t]. *)
Definition to_size_t (z : Z) : Z := z mod 2 ^ 64.

(** [std::string::substr(pos, count)]: throws when [pos > size()], otherwise
    the characters [pos, pos + min(count, size() - pos)). *)
Definition substr (str : string) (pos count : Z) : outcome string :=
  let size := Z.of_nat (String.length str) in
  if size <? pos then OutOfRange
  else Returned (substring (Z.to_nat pos) (Z.to_nat (Z.min count (size - pos))) str).

(** The body of the [for] loop of [splitString]: the substring pushed at
    index [i]. *)
Definition splitString_chunk (str : string) (n str_length part_size i : Z)
  : outcome string :=
  if negb (Z.rem str_length n =? 0) then
    if i + part_size >=? str_length then
      substr str (to_size_t i) (to_size_t (str_length - 1))
    else
      substr str (to_size_t i) (to_size_t (i + part_size))
  else
    substr str (to_size_t i) (to_size_t (i + part_size)).

(** [for (int i = 0; i < str_length; i = i + part_size)]. *)
Fixpoint splitString_loop (fuel : nat) (str : string)
    (n str_length part_size i : Z) (substrings : list string)
  : outcome (list string) :=
  match fuel with
  | O => OutOfFuel
  | S fuel' =>
      if i <? str_length then
        chunk <- splitString_chunk str n str_length part_size i ;;
        splitString_loop fuel' str n str_length part_size (i + part_size)
                         (substrings ++ [chunk])
      else Returned substrings
  end.

(** [Cipher::splitString].  Its [int]s are integers of [Z]: the model is
    the code for every text below 2^30 characters, the bound under which
    the general properties below are stated. *)
Definition splitString (fuel : nat) (str : string) (n : Z)
  : outcome (list string) :=
  let str_length := Z.of_nat (String.length str) in
  if n =? 0 then Undefined
  else
    let part_size := Z.quot str_length n in
    splitString_loop fuel str n str_length part_size 0 [].

(** ** The driver: the multithreaded part of [main] *)

(** [std::vector::operator[]]: undefined behaviour past the end. *)
Definition at_index (v : list string) (i : Z) : outcome string :=
  if i <? 0 then Undefined
  else match nth_error v (Z.to_nat i) with
       | Some s => Returned s
       | None => Undefined
       end.

(** The values [i] takes in [for (int i{0}; i < nThreads; ++i)]. *)
Definition indices (nThreads : Z) : list Z :=
  map Z.of_nat (seq 0 (Z.to_nat nThreads)).

(** A counted [for] loop threading the state [St] through its body. *)
Fixpoint for_each {St : Type} (idxs : list Z) (body : Z -> St -> outcome St)
    (s : St) : outcome St :=
  match idxs with
  | [] => Returned s
  | i :: idxs' => s' <- body i s ;; for_each idxs' body s'
  end.

(** [std::future_status], as returned by [wait_for]. *)
Inductive future_status : Type := ready | timeout | deferred.

Definition future_status_eqb (a b : future_status) : bool :=
  match a, b with
  | ready, ready | timeout, timeout | deferred, deferred => true
  | _, _ => false
  end.

(** What the environment answers to the [r]-th round of [wait_for] calls on
    future [i]: the scheduling of the workers is not decided by the program. *)
Definition schedule : Type := nat -> Z -> future_status.

(** What the worker launched in iteration [i] finds in the variable [i]
    when it evaluates [substrs[i]]: the lambda of line 134 captures [i] by
    reference, and the worker runs while [main] goes on incrementing it. *)
Definition race : Type := Z -> Z.

(** The values a worker can find: those the loop variable takes, from 0 to
    its final value [nThreads]. *)
Definition race_in_range (nThreads : Z) (reads : race) : bool :=
  forallb (fun i => (0 <=? reads i) && (reads i <=? nThreads)) (indices nThreads).

(** What [main] hands to the output writer, and the progress lines it
    printed while polling. *)
Record transformed : Type :=
  { progress : list string;
    outputText : string }.

Section Driver.
Context {C : Type} `{Cipher C}.
Variable cipher : C.
Variable cipherMode : CipherMode.
Variable inputText : string.
Variable nThreads : Z.

(** Lines 131-137.  The state is [(futures, substrs)].  A future is
    modelled by the value its task computes.  The task reads [substrs] and
    [i] through references: it finds in [substrs] the vector every
    iteration assigns, and in [i] the value [reads i], which can be any
    value the loop variable takes up to [nThreads], one past the last
    index [main] itself uses. *)
Definition launch_body (fuel : nat) (reads : race) (i : Z)
    (st : list string * list string)
  : outcome (list string * list string) :=
  let '(futures, _) := st in
  substrs <- splitString fuel inputText nThreads ;;
  chunk <- at_index substrs (reads i) ;;
  let future := applyCipher cipher chunk cipherMode in
  Returned (futures ++ [future], substrs).

Definition launch (fuel : nat) (reads : race)
  : outcome (list string * list string) :=
  for_each (indices nThreads) (launch_body fuel reads) ([], []).

(** Lines 143-150: one round of [wait_for] over all futures.  The state
    is [(status, printed)]. *)
Definition poll_body (sched : schedule) (round : nat) (i : Z)
    (st : future_status * list string)
  : outcome (future_status * list string) :=
  let '(_, printed) := st in
  let status := sched round i in
  if future_status_eqb status timeout
  then Returned (status, printed ++ ["processing"%string])
  else Returned (status, printed).

(** Lines 139-153: [do { ... } while (status != ready)]. *)
Fixpoint wait_loop (fuel : nat) (sched : schedule) (round : nat)
    (status : future_status) (printed : list string)
  : outcome (list string) :=
  match fuel with
  | O => OutOfFuel
  | S fuel' =>
      st <- for_each (indices nThreads) (poll_body sched round)
                     (status, printed) ;;
      let '(status', printed') := st in
      if future_status_eqb status' ready then Returned printed'
      else wait_loop fuel' sched (S round) status' printed'
  end.

(** Lines 155-160: [outputText += substrs[i]]. *)
Definition combine_body (substrs : list string) (i : Z) (outputText : string)
  : outcome string :=
  chunk <- at_index substrs i ;;
  Returned (outputText ++ chunk)%string.

Definition combine (substrs : list string) : outcome string :=
  for_each (indices nThreads) (combine_body substrs) EmptyString.

(** Lines 127-160 of [main], for a worker count [nThreads]. *)
Definition transform (fuel : nat) (reads : race) (sched : schedule)
  : outcome transformed :=
  st <- launch fuel reads ;;
  let '(_, substrs) := st in
  printed <- wait_loop fuel sched 0 ready [] ;;
  out <- combine substrs ;;
  Returned {| progress := printed; outputText := out |}.

End Driver.

(** [main] from the construction of the cipher to the recombined text,
    with [int nThreads{4};]. *)
Definition main {C : Type} `{Cipher C} (cipher : C)
    (cipherMode : CipherMode) (inputText : string)
    (fuel : nat) (reads : race) (sched : schedule) : outcome transformed :=
  let nThreads := 4 in
  transform cipher cipherMode inputText nThreads fuel reads sched.

(** ** The cipher variants and the factory

    CaesarCipher, VigenereCipher, PlayfairCipher and cipherFactory are
    declared by the headers the driver includes, but their sources are not
    among the files verified here; they are modelled from sections 4.2-4.5
    of the specification.  The working alphabet is uppercase A-Z, and a
    character outside it is passed through unchanged. *)

(** Modelled from the spec: the working alphabet, uppercase A-Z (section
    3, Text).  [pos] is the position of a character relative to ['A'],
    [letter] the letter at a position. *)
Definition pos (c : ascii) : Z := Z.of_nat (nat_of_ascii c) - 65.

Definition letter (p : Z) : ascii := ascii_of_nat (Z.to_nat (p + 65)).

Definition in_alphabet (c : ascii) : bool := (0 <=? pos c) && (pos c <? 26).

(** Modelled from the spec: the shift of a letter by [k] positions with
    wraparound within the alphabet (sections 4.2, 4.3); a character outside
    the alphabet is passed through (section 4.1). *)
Definition shift_letter (k : Z) (c : ascii) : ascii :=
  if in_alphabet c then letter ((pos c + k) mod 26) else c.

Fixpoint map_string (f : ascii -> ascii) (s : string) : string :=
  match s with
  | EmptyString => EmptyString
  | String c s' => String (f c) (map_string f s')
  end.

(** *** Caesar *)

Definition digit_value (c : ascii) : option Z :=
  let d := Z.of_nat (nat_of_ascii c) - 48 in
  if (0 <=? d) && (d <=? 9) then Some d else None.

Fixpoint parse_digits (s : string) (acc : Z) : option Z :=
  match s with
  | EmptyString => Some acc
  | String c s' =>
      match digit_value c with
      | Some d => parse_digits s' (10 * acc + d)
      | None => None
      end
  end.

(** Modelled from the spec: the key parser of CaesarCipher (section 4.2,
    "any integer string is accepted, including negative and values beyond
    26"): an optional minus sign followed by at least one decimal digit. *)
Definition parse_integer (s : string) : option Z :=
  match s with
  | EmptyString => None
  | String "-"%char EmptyString => None
  | String "-"%char s' => option_map Z.opp (parse_digits s' 0)
  | _ => parse_digits s 0
  end.

(** Modelled from the spec: CaesarCipher::applyCipher (section 4.2): encrypt
    shifts each letter forward by the key, decrypt shifts it backward. *)
Definition caesar_apply (key : Z) (text : string) (mode : CipherMode) : string :=
  match mode with
  | Encrypt => map_string (shift_letter key) text
  | Decrypt => map_string (shift_letter (- key)) text
  end.

(** *** Vigenere *)

(** Modelled from the spec: VigenereCipher::applyCipher (section 4.3).  [j]
    counts the letters seen so far, so that a character that is passed
    through does not advance the keyword. *)
Fixpoint vigenere_walk (key : list ascii) (mode : CipherMode) (j : nat)
    (text : string) : string :=
  match text with
  | EmptyString => EmptyString
  | String c text' =>
      if in_alphabet c then
        let k := pos (nth (j mod length key) key "A"%char) in
        let k' := match mode with Encrypt => k | Decrypt => - k end in
        String (shift_letter k' c) (vigenere_walk key mode (S j) text')
      else String c (vigenere_walk key mode j text')
  end.

(** Modelled from the spec: VigenereCipher::applyCipher, the walk started
    at the first letter of the keyword. *)
Definition vigenere_apply (key : list ascii) (text : string) (mode : CipherMode)
  : string :=
  vigenere_walk key mode 0 text.

(** *** Playfair *)

(** Modelled from the spec: the 25 usable letters of PlayfairCipher
    (section 4.4): J is merged with I. *)
Definition alphabet25 : list ascii :=
  list_ascii_of_string "ABCDEFGHIKLMNOPQRSTUVWXYZ".

Definition merge_J (c : ascii) : ascii :=
  if Ascii.eqb c "J" then "I"%char else c.

Definition mem (c : ascii) (l : list ascii) : bool := existsb (Ascii.eqb c) l.

(** Drop every letter that occurred before (in [seen] or earlier in [l]). *)
Fixpoint dedup (l seen : list ascii) : list ascii :=
  match l with
  | [] => []
  | c :: l' => if mem c seen then dedup l' seen else c :: dedup l' (c :: seen)
  end.

(** Modelled from the spec: the key square of PlayfairCipher (section 4.4):
    the keyword without its repeated letters, then the remaining letters of
    the alphabet in order, row by row. *)
Definition key_square (keyword : string) : list ascii :=
  dedup (map merge_J (list_ascii_of_string keyword) ++ alphabet25) [].

Fixpoint index_of (c : ascii) (g : list ascii) : nat :=
  match g with
  | [] => O
  | x :: g' => if Ascii.eqb x c then O else S (index_of c g')
  end.

Definition row (g : list ascii) (c : ascii) : nat := (index_of c g / 5)%nat.
Definition col (g : list ascii) (c : ascii) : nat := (index_of c g mod 5)%nat.
Definition cell (g : list ascii) (r c : nat) : ascii :=
  nth (5 * r + c) g "A"%char.

(** One step to the right or down when encrypting, to the left or up when
    decrypting, modulo the side of the square. *)
Definition step (mode : CipherMode) (x : nat) : nat :=
  match mode with
  | Encrypt => ((x + 1) mod 5)%nat
  | Decrypt => ((x + 4) mod 5)%nat
  end.

(** Modelled from the spec: the digraph rule of PlayfairCipher (section
    4.4): same row, same column, rectangle.  A pair with a character outside
    the square is passed through. *)
Definition playfair_pair (g : list ascii) (mode : CipherMode) (a b : ascii)
  : ascii * ascii :=
  if mem a g && mem b g then
    let ra := row g a in let ca := col g a in
    let rb := row g b in let cb := col g b in
    if (ra =? rb)%nat then (cell g ra (step mode ca), cell g rb (step mode cb))
    else if (ca =? cb)%nat then (cell g (step mode ra) ca, cell g (step mode rb) cb)
    else (cell g ra cb, cell g rb ca)
  else (a, b).

(** Modelled from the spec: the digraph rule applied to each pair of a
    preprocessed text. *)
Fixpoint playfair_pairs (g : list ascii) (mode : CipherMode) (l : list ascii)
  : list ascii :=
  match l with
  | a :: b :: l' =>
      let '(x, y) := playfair_pair g mode a b in
      x :: y :: playfair_pairs g mode l'
  | _ => l
  end.

(** Modelled from the spec: the filler letters of PlayfairCipher.  Section
    4.4 speaks of "a filler letter" without fixing it; which letter is
    inserted after a given letter is a parameter of the cipher. *)
Record FillerPolicy : Type :=
  { split_filler : ascii -> ascii;   (* between the two equal letters of a pair *)
    pad_filler : ascii -> ascii }.   (* after a trailing unpaired letter *)

(** The usual choice: X (Q after an X) splits a pair, Z (X after a Z) pads. *)
Definition standard_fillers : FillerPolicy :=
  {| split_filler := fun a => if Ascii.eqb a "X" then "Q"%char else "X"%char;
     pad_filler := fun a => if Ascii.eqb a "Z" then "X"%char else "Z"%char |}.

(** A policy is usable when every filler is one of the 25 letters and
    differs from the letter it follows. *)
Definition valid_fillers (policy : FillerPolicy) : bool :=
  forallb (fun a =>
             mem (split_filler policy a) alphabet25
             && negb (Ascii.eqb (split_filler policy a) a)
             && mem (pad_filler policy a) alphabet25
             && negb (Ascii.eqb (pad_filler policy a) a))
          alphabet25.

(** Modelled from the spec: the preprocessing of PlayfairCipher (section
    4.4): the text is cut into pairs; a pair of identical letters is split
    by a filler, a trailing unpaired letter is padded with a filler. *)
Fixpoint digraphs (policy : FillerPolicy) (l : list ascii) : list ascii :=
  match l with
  | [] => []
  | a :: l' =>
      match l' with
      | [] => [a; pad_filler policy a]
      | b :: l'' =>
          if Ascii.eqb a b then a :: split_filler policy a :: digraphs policy l'
          else a :: b :: digraphs policy l''
      end
  end.

(** Modelled from the spec: the preprocessing of a whole text, J read
    as I. *)
Definition playfair_prepare (policy : FillerPolicy) (text : string) : list ascii :=
  digraphs policy (map merge_J (list_ascii_of_string text)).

(** Modelled from the spec: PlayfairCipher::applyCipher (section 4.4). *)
Definition playfair_apply (policy : FillerPolicy) (g : list ascii)
    (text : string) (mode : CipherMode) : string :=
  string_of_list_ascii (playfair_pairs g mode (playfair_prepare policy text)).

(** *** The factory *)

(** Modelled from the spec: the classes derived from [Cipher], as the
    closed set of variants with their validated key material (sections 3
    and 9). *)
Inductive AnyCipher : Type :=
| CaesarCipher (key : Z)
| PlayfairCipher (policy : FillerPolicy) (grid : list ascii)
| VigenereCipher (key : list ascii).

#[export] Instance AnyCipher_Cipher : Cipher AnyCipher :=
  {| applyCipher := fun cipher text mode =>
       match cipher with
       | CaesarCipher key => caesar_apply key text mode
       | PlayfairCipher policy grid => playfair_apply policy grid text mode
       | VigenereCipher key => vigenere_apply key text mode
       end |}.

(** [class InvalidKey : public std::invalid_argument] (Cipher.hpp), thrown
    by the constructors, or the constructed cipher. *)
Inductive constructed : Type :=
| InvalidKey (what : string)
| Constructed (cipher : AnyCipher).

(** Modelled from the spec: cipherFactory (section 4.5) with the key
    validation of sections 4.2-4.4. *)
Definition cipherFactory (policy : FillerPolicy) (kind : CipherType)
    (rawKey : string) : constructed :=
  match kind with
  | Caesar =>
      match parse_integer rawKey with
      | Some k => Constructed (CaesarCipher (k mod 26))
      | None => InvalidKey "Caesar key is not an integer"
      end
  | Vigenere =>
      let key := list_ascii_of_string rawKey in
      if negb (Nat.eqb (length key) 0) && forallb in_alphabet key
      then Constructed (VigenereCipher key)
      else InvalidKey "Vigenere key is empty or not alphabetic"
  | Playfair =>
      let grid := key_square rawKey in
      if Nat.eqb (length grid) 25
      then Constructed (PlayfairCipher policy grid)
      else InvalidKey "Playfair key does not seed a 25-letter square"
  end.

(** Modelled from the spec: a text over the working alphabet of a cipher
    kind: A-Z, without J for Playfair. *)
Definition over_alphabet (kind : CipherType) (text : string) : bool :=
  match kind with
  | Playfair => forallb (fun c => mem c alphabet25) (list_ascii_of_string text)
  | _ => forallb in_alphabet (list_ascii_of_string text)
  end.

(** Modelled from the spec: equality "up to insertion of filler
    characters" (section 4.4): [t] is [s] with filler letters inserted. *)
Inductive fillers_inserted (policy : FillerPolicy)
  : list ascii -> list ascii -> Prop :=
| fi_nil : fillers_inserted policy [] []
| fi_keep c s t :
    fillers_inserted policy s t -> fillers_inserted policy (c :: s) (c :: t)
| fi_split a s t :
    fillers_inserted policy s t ->
    fillers_inserted policy s (split_filler policy a :: t)
| fi_pad a s t :
    fillers_inserted policy s t ->
    fillers_inserted policy s (pad_filler policy a :: t).

(** [outputText] as the specification wants it: the chunks of a vector
    joined in index order. *)
Definition concat_all (chunks : list string) : string :=
  fold_right String.append EmptyString chunks.

(** The recombination the specification describes: every chunk goes through
    [applyCipher] and the results are joined in index order. *)
Definition transformed_chunks {C : Type} `{Cipher C} (cipher : C)
    (cipherMode : CipherMode) (chunks : list string) : string :=
  concat_all (map (fun chunk => applyCipher cipher chunk cipherMode) chunks).

(** A square accepted by the factory holds each of the 25 letters once. *)
Definition valid_square (g : list ascii) : Prop :=
  NoDup g /\ length g = 25%nat /\ forall c, In c g <-> In c alphabet25.

(** A text cut into pairs of distinct letters taken from [g]. *)
Inductive paired (g : list ascii) : list ascii -> Prop :=
| paired_nil : paired g []
| paired_cons a b l :
    In a g -> In b g -> a <> b -> paired g l -> paired g (a :: b :: l).


(** ** The splitter in closed form *)

(** The chunk pushed at index [i] when the step is [p]: it starts at [i]
    and holds [i + p] characters unless the text ends before. *)
Definition chunk_at (str : string) (p i : Z) : string :=
  let len := Z.of_nat (String.length str) in
  substring (Z.to_nat i) (Z.to_nat (Z.min (i + p) (len - i))) str.

(** The indices at which the loop pushes a chunk, from [i] on. *)
Definition offsets (len p i : Z) : list Z :=
  map (fun k => i + Z.of_nat k * p) (seq 0 (Z.to_nat ((len - i + p - 1) / p))).

(** ** The polling in closed form *)

(** The progress lines of one round: one per future that timed out. *)
Definition round_lines (nThreads : Z) (sched : schedule) (round : nat)
  : list string :=
  map (fun _ => "processing")
      (filter (fun i => future_status_eqb (sched round i) timeout)
              (indices nThreads)).

(** The progress lines of the rounds [round], ..., [round + k]. *)
Fixpoint rounds_lines (nThreads : Z) (sched : schedule) (round k : nat)
  : list string :=
  match k with
  | O => round_lines nThreads sched round
  | S k' => round_lines nThreads sched round
            ++ rounds_lines nThreads sched (S round) k'
  end.

(** The modelled factory with the usual fillers. *)
Definition standard_factory (kind : CipherType) (rawKey : string) : constructed :=
  cipherFactory standard_fillers kind rawKey.

(** ** The whole of [main]

    [processCommandLine], [transformChar] and [cipherFactory] are declared
    in headers whose sources are not among the files verified here, and the
    files and streams belong to the system: they are parameters
    ([Environment]) of the model of [main]. *)

Module Program.

Local Open Scope string_scope.

(** [struct ProgramSettings], with the members [main] and the tests name. *)
Record ProgramSettings : Type :=
  { helpRequested : bool;
    versionRequested : bool;
    inputFile : string;
    outputFile : string;
    cipherKey : string;
    cipherMode : CipherMode;
    cipherType : CipherType }.

(** What a call of [processCommandLine] does: it fills the settings or
    throws one of the two exceptions [main] catches. *)
Inductive parsed : Type :=
| Parsed (settings : ProgramSettings)
| MissingArgument (what : string)
| UnknownArgument (what : string).

(** What a call of [cipherFactory] does: it throws [InvalidKey], or
    returns a null pointer, or a cipher. *)
Inductive made (C : Type) : Type :=
| ThrowsInvalidKey (what : string)
| Null
| Made (cipher : C).

Arguments ThrowsInvalidKey {C} what.
Arguments Null {C}.
Arguments Made {C} cipher.

Record Environment (C : Type) : Type :=
  { processCommandLine : list string -> ProgramSettings -> parsed;
    transformChar : ascii -> string;
    cipherFactory : CipherType -> string -> made C;
    open_ifstream : string -> option string;  (* the content, if the stream is good *)
    cin : string;                             (* what is typed until end of file *)
    open_ofstream : string -> bool;           (* whether the stream is good *)
    racing_i : race;                          (* what each worker finds in [i] *)
    wait_for : schedule }.

Arguments processCommandLine {C} _ _ _.
Arguments transformChar {C} _ _.
Arguments cipherFactory {C} _ _ _.
Arguments open_ifstream {C} _ _.
Arguments cin {C} _.
Arguments open_ofstream {C} _ _.
Arguments racing_i {C} _ _.
Arguments wait_for {C} _.

(** What a run of the program leaves behind. *)
Record Execution : Type :=
  { exit_code : Z;
    cout : string;
    cerr : string;
    written : option (string * string) }.  (* file name and content *)

(** The character [std::endl] writes. *)
Definition endl : string := String (ascii_of_nat 10) EmptyString.

(** The help message, line by line. *)
Definition usage : string :=
  concat_all
    (map (fun line => (line ++ endl)%string)
    ["Usage: mpags-cipher [-h/--help] [--version] [-i <file>] [-o <file>] [-c <cipher>] [-k <key>] [--encrypt/--decrypt]";
     "";
     "Encrypts/Decrypts input alphanumeric text using classical ciphers";
     "";
     "Available options:";
     "";
     "  -h|--help        Print this help message and exit";
     "";
     "  --version        Print version information";
     "";
     "  -i FILE          Read text to be processed from FILE";
     "                   Stdin will be used if not supplied";
     "";
     "  -o FILE          Write processed text to FILE";
     "                   Stdout will be used if not supplied";
     "";
     "                   Stdout will be used if not supplied";
     "";
     "  -c CIPHER        Specify the cipher to be used to perform the encryption/decryption";
     "                   CIPHER can be caesar, playfair, or vigenere - caesar is the default";
     "";
     "  -k KEY           Specify the cipher KEY";
     "                   A null key, i.e. no encryption, is used if not supplied";
     "";
     "  --encrypt        Will use the cipher to encrypt the input text (default behaviour)";
     "";
     "  --decrypt        Will use the cipher to decrypt the input text";
     ""]).

(** The characters [operator>>] skips before it reads a [char]:
    [std::isspace] in the default locale. *)
Definition isspace (c : ascii) : bool :=
  let x := nat_of_ascii c in
  Nat.eqb x 32 || (Nat.leb 9 x && Nat.leb x 13).

(** [while (stream >> inputChar) inputText += transformChar(inputChar);] *)
Fixpoint read_text (transformChar : ascii -> string) (stream : string) : string :=
  match stream with
  | EmptyString => EmptyString
  | String c stream' =>
      if isspace c then read_text transformChar stream'
      else (transformChar c ++ read_text transformChar stream')%string
  end.

(** [std::cout << "processing\n"], once per progress line. *)
Definition print_progress (lines : list string) : string :=
  concat_all (map (fun line => (line ++ endl)%string) lines).

Definition failure (printed message : string) : Execution :=
  {| exit_code := 1; cout := printed; cerr := (message ++ endl)%string;
     written := None |}.

Definition success (printed : string) (file : option (string * string))
  : Execution :=
  {| exit_code := 0; cout := printed; cerr := EmptyString; written := file |}.

(** [ProgramSettings settings{false, false, "", "", "", CipherMode::Encrypt,
    CipherType::Caesar};] *)
Definition default_settings : ProgramSettings :=
  {| helpRequested := false; versionRequested := false;
     inputFile := ""; outputFile := ""; cipherKey := "";
     cipherMode := Encrypt; cipherType := Caesar |}.

Section Main.
Context {C : Type} `{Cipher C}.
Variable env : Environment C.

(** Lines 83-103: the stream the text is read from, if it can be read. *)
Definition input_stream (settings : ProgramSettings) : option string :=
  if negb (String.eqb (inputFile settings) "")
  then open_ifstream env (inputFile settings)
  else Some (cin env).

(** [main], lines 16-184. *)
Definition main (cmdLineArgs : list string) (fuel : nat) : outcome Execution :=
  match processCommandLine env cmdLineArgs default_settings with
  | MissingArgument what =>
      Returned (failure "" ("[error] missing argument: " ++ what))
  | UnknownArgument what =>
      Returned (failure "" ("[error] unknown argument: " ++ what))
  | Parsed settings =>
      if helpRequested settings then
        Returned (success (usage ++ endl) None)
      else if versionRequested settings then
        Returned (success ("0.5.0" ++ endl) None)
      else
        match input_stream settings with
        | None =>
            Returned (failure "" ("[error] failed to create istream on file '"
                                  ++ inputFile settings ++ "'"))
        | Some content =>
            let inputText := read_text (transformChar env) content in
            match cipherFactory env (cipherType settings) (cipherKey settings) with
            | ThrowsInvalidKey what =>
                Returned (failure "" ("[error] Invalid key: " ++ what))
            | Null =>
                Returned (failure "" "[error] problem constructing requested cipher")
            | Made cipher =>
                r <- main cipher (cipherMode settings) inputText fuel
                          (racing_i env) (wait_for env) ;;
                let printed := print_progress (progress r) in
                if negb (String.eqb (outputFile settings) "") then
                  if open_ofstream env (outputFile settings) then
                    Returned (success printed
                                (Some (outputFile settings,
                                       (outputText r ++ endl)%string)))
                  else
                    Returned (failure printed
                                ("[error] failed to create ostream on file '"
                                 ++ outputFile settings ++ "'"))
                else
                  Returned (success (printed ++ outputText r ++ endl) None)
            end
        end
  end.

End Main.

(** An environment for the examples below, not the repository's own: its
    command line reader knows [--help], [--version], [--decrypt], [-k KEY]
    and [-o FILE]; its [transformChar] keeps the letters A-Z and drops
    everything else; its factory is the one modelled above; no input file
    can be opened, and the only output file that can is "output.txt";
    every worker finds [i] already incremented. *)
Fixpoint example_parse (args : list string) (settings : ProgramSettings) : parsed :=
  match args with
  | [] => Parsed settings
  | arg :: rest =>
      let with_value (set : string -> ProgramSettings) : parsed :=
        match rest with
        | [] => MissingArgument arg
        | value :: rest' => example_parse rest' (set value)
        end in
      if String.eqb arg "--help" then
        example_parse rest
          {| helpRequested := true;
             versionRequested := versionRequested settings;
             inputFile := inputFile settings; outputFile := outputFile settings;
             cipherKey := cipherKey settings; cipherMode := cipherMode settings;
             cipherType := cipherType settings |}
      else if String.eqb arg "--version" then
        example_parse rest
          {| helpRequested := helpRequested settings;
             versionRequested := true;
             inputFile := inputFile settings; outputFile := outputFile settings;
             cipherKey := cipherKey settings; cipherMode := cipherMode settings;
             cipherType := cipherType settings |}
      else if String.eqb arg "--decrypt" then
        example_parse rest
          {| helpRequested := helpRequested settings;
             versionRequested := versionRequested settings;
             inputFile := inputFile settings; outputFile := outputFile settings;
             cipherKey := cipherKey settings; cipherMode := Decrypt;
             cipherType := cipherType settings |}
      else if String.eqb arg "-k" then
        with_value (fun value =>
          {| helpRequested := helpRequested settings;
             versionRequested := versionRequested settings;
             inputFile := inputFile settings; outputFile := outputFile settings;
             cipherKey := value; cipherMode := cipherMode settings;
             cipherType := cipherType settings |})
      else if String.eqb arg "-o" then
        with_value (fun value =>
          {| helpRequested := helpRequested settings;
             versionRequested := versionRequested settings;
             inputFile := inputFile settings; outputFile := value;
             cipherKey := cipherKey settings; cipherMode := cipherMode settings;
             cipherType := cipherType settings |})
      else UnknownArgument arg
  end.

Definition example_environment : Environment AnyCipher :=
  {| processCommandLine := fun args settings => example_parse (tl args) settings;
     transformChar := fun c => if in_alphabet c then String c "" else "";
     cipherFactory := fun kind key =>
       match standard_factory kind key with
       | InvalidKey what => ThrowsInvalidKey what
       | Constructed cipher => Made cipher
       end;
     open_ifstream := fun name => None;
     cin := "HELLO WORLD";
     open_ofstream := fun name => String.eqb name "output.txt";
     racing_i := fun i => i + 1;
     wait_for := fun round i => if (round <? 1)%nat then timeout else ready |}.

End Program.

(** * Properties of the splitter *)

Section SplitString.
Variable str : string.
Variable n : Z.

Let str_length := Z.of_nat (String.length str).
Let part_size := Z.quot str_length n.

Lemma to_size_t_le (z : Z) : 0 <= z -> 0 <= to_size_t z <= z.
Proof.
  intros Hz. unfold to_size_t. split.
  - apply Z.mod_pos_bound. lia.
  - apply Z.mod_le; lia.
Qed.

Lemma substr_returns (p count : Z) :
  p <= str_length -> exists chunk, substr str p count = Returned chunk.
Proof.
  intros Hp. unfold substr. fold str_length.
  destruct (Z.ltb_spec str_length p); [lia|]. eauto.
Qed.

(** Inside the loop [substr] never throws: [i] is below the size. *)
Lemma splitString_chunk_returns (i : Z) :
  0 <= i < str_length ->
  exists chunk, splitString_chunk str n str_length part_size i = Returned chunk.
Proof.
  intros Hi. pose proof (to_size_t_le i (proj1 Hi)) as Hle.
  unfold splitString_chunk.
  destruct (negb _); [destruct (_ >=? _)|]; apply substr_returns; lia.
Qed.

(** With a positive step the loop returns once the fuel exceeds the
    distance to the end of the string. *)
Lemma splitString_loop_returns (fuel : nat) :
  1 <= part_size ->
  forall (i : Z) (substrings : list string),
    0 <= i ->
    (Z.to_nat (str_length - i) < fuel)%nat ->
    exists chunks,
      splitString_loop fuel str n str_length part_size i substrings
      = Returned chunks.
Proof.
  intros Hstep. induction fuel as [|fuel IH]; intros i substrings Hi Hfuel.
  - lia.
  - cbn [splitString_loop].
    destruct (Z.ltb_spec i str_length) as [Hlt|Hge]; [|eauto].
    destruct (splitString_chunk_returns i (conj Hi Hlt)) as [chunk ->].
    cbn [bind]. apply IH; lia.
Qed.

(** With a zero step the loop never leaves its first state. *)
Lemma splitString_loop_stuck (fuel : nat) :
  part_size = 0 ->
  forall (i : Z) (substrings : list string),
    0 <= i < str_length ->
    splitString_loop fuel str n str_length part_size i substrings = OutOfFuel.
Proof.
  intros Hstep. induction fuel as [|fuel IH]; intros i substrings Hi.
  - reflexivity.
  - cbn [splitString_loop].
    destruct (Z.ltb_spec i str_length) as [Hlt|Hge]; [|lia].
    destruct (splitString_chunk_returns i Hi) as [chunk ->].
    cbn [bind]. replace (i + part_size) with i by lia. apply IH. exact Hi.
Qed.

(** More fuel does not change a result. *)
Lemma splitString_loop_fuel_mono (fuel : nat) :
  forall (fuel' : nat) (i : Z) (substrings chunks : list string),
    (fuel <= fuel')%nat ->
    splitString_loop fuel str n str_length part_size i substrings
    = Returned chunks ->
    splitString_loop fuel' str n str_length part_size i substrings
    = Returned chunks.
Proof.
  induction fuel as [|fuel IH]; intros fuel' i substrings chunks Hle Hrun.
  - discriminate.
  - destruct fuel' as [|fuel']; [lia|].
    cbn [splitString_loop] in *.
    destruct (i <? str_length); [|exact Hrun].
    destruct (splitString_chunk str n str_length part_size i);
      cbn [bind] in *; try discriminate.
    apply IH; [lia | exact Hrun].
Qed.

(** Each chunk pushed accounts for one step of the index. *)
Lemma splitString_loop_count (fuel : nat) :
  forall (i : Z) (substrings chunks : list string),
    splitString_loop fuel str n str_length part_size i substrings
    = Returned chunks ->
    Z.of_nat (length substrings) * part_size + (str_length - i)
    <= Z.of_nat (length chunks) * part_size.
Proof.
  induction fuel as [|fuel IH]; intros i substrings chunks Hrun.
  - discriminate.
  - cbn [splitString_loop] in Hrun.
    destruct (Z.ltb_spec i str_length) as [Hlt|Hge].
    + destruct (splitString_chunk str n str_length part_size i);
        cbn [bind] in Hrun; try discriminate.
      apply IH in Hrun. rewrite length_app in Hrun. cbn [length] in Hrun. lia.
    + injection Hrun as <-. lia.
Qed.

End SplitString.

(** With at least [n] characters the splitter returns at least [n] chunks. *)
Lemma splitString_at_least (str : string) (n : Z) (fuel : nat)
    (chunks : list string) :
  1 <= n -> n <= Z.of_nat (String.length str) ->
  splitString fuel str n = Returned chunks ->
  n <= Z.of_nat (length chunks).
Proof.
  intros Hn Hlen. unfold splitString.
  destruct (n =? 0); [discriminate|]. intros Hrun.
  apply splitString_loop_count in Hrun. cbn [length] in Hrun.
  set (len := Z.of_nat (String.length str)) in *.
  assert (Hstep : 1 <= Z.quot len n) by (apply Z.quot_le_lower_bound; lia).
  assert (Hmul : n * Z.quot len n <= len) by (apply Z.mul_quot_le; lia).
  nia.
Qed.

(** A non-empty text shorter than the worker count: the step is 0 and the
    call does not return. *)
Lemma splitString_diverges (str : string) (n : Z) :
  0 < Z.of_nat (String.length str) < n ->
  Z.quot (Z.of_nat (String.length str)) n = 0
  /\ forall fuel, splitString fuel str n = OutOfFuel.
Proof.
  intros Hshort.
  assert (Hstep : Z.quot (Z.of_nat (String.length str)) n = 0)
    by (apply Z.quot_small; lia).
  split; [exact Hstep|].
  intros fuel. unfold splitString.
  destruct (Z.eqb_spec n 0) as [|_]; [lia|].
  apply splitString_loop_stuck; [exact Hstep | lia].
Qed.

(** An empty text, or one with at least [n] characters: the call returns
    as soon as the fuel exceeds the length. *)
Lemma splitString_returns (str : string) (n : Z) :
  1 <= n ->
  Z.of_nat (String.length str) = 0 \/ n <= Z.of_nat (String.length str) ->
  exists chunks,
    (Z.of_nat (String.length str) = 0 -> chunks = [])
    /\ forall fuel, (String.length str < fuel)%nat ->
                    splitString fuel str n = Returned chunks.
Proof.
  intros Hn Hlen. set (len := Z.of_nat (String.length str)) in *.
  assert (Hstep : len = 0 \/ 1 <= Z.quot len n).
  { destruct Hlen as [H0|Hge]; [left; exact H0 | right].
    apply Z.quot_le_lower_bound; lia. }
  assert (Hrun : exists chunks,
             splitString (S (String.length str)) str n = Returned chunks
             /\ (len = 0 -> chunks = [])).
  { unfold splitString. destruct (Z.eqb_spec n 0) as [|_]; [lia|].
    fold len. destruct Hstep as [H0|Hpos].
    - exists []. cbn [splitString_loop]. rewrite H0. cbn. auto.
    - destruct (splitString_loop_returns str n (S (String.length str)) Hpos
                  0 [] (Z.le_refl 0)) as [chunks Hchunks]; [fold len; lia|].
      exists chunks. split; [exact Hchunks|].
      intros H0. rewrite H0 in Hpos. rewrite Z.quot_0_l in Hpos; lia. }
  destruct Hrun as (chunks & Hrun & Hempty).
  exists chunks. split; [exact Hempty|].
  intros fuel Hfuel. unfold splitString in *.
  destruct (n =? 0); [discriminate|].
  eapply splitString_loop_fuel_mono; [|exact Hrun]. lia.
Qed.

(** C10.  For every worker count [n >= 1] and every text below 2^30
    characters (so that no [int] of the code overflows),
    [splitString str n] returns when [str] is empty (the empty vector) or
    has at least [n] characters (the step [length / n] is then at least 1,
    so the index strictly increases): any fuel above the length is enough.
    For a non-empty [str] shorter than [n] the step is 0 and the call does
    not return, whatever the fuel. *)
Theorem splitString_terminates (str : string) (n : Z) :
  1 <= n ->
  Z.of_nat (String.length str) < 2 ^ 30 ->
  let len := Z.of_nat (String.length str) in
  (len = 0 \/ n <= len ->
     exists chunks,
       (len = 0 -> chunks = [])
       /\ (n <= len -> 1 <= Z.quot len n)
       /\ forall fuel, (String.length str < fuel)%nat ->
                       splitString fuel str n = Returned chunks)
  /\ (0 < len < n ->
        Z.quot len n = 0
        /\ forall fuel, splitString fuel str n = OutOfFuel).
Proof.
  intros Hn _ len. split.
  - intros Hlen.
    destruct (splitString_returns str n Hn Hlen) as (chunks & Hempty & Hrun).
    exists chunks. repeat split; [exact Hempty| |exact Hrun].
    intros Hge. apply Z.quot_le_lower_bound; lia.
  - apply splitString_diverges.
Qed.

Lemma splitString_terminates_witness :
  (exists chunks, forall fuel, (5 < fuel)%nat ->
                               splitString fuel "HELLO" 4 = Returned chunks)
  /\ (forall fuel, splitString fuel "ABC" 4 = OutOfFuel).
Proof.
  split.
  - destruct (splitString_terminates "HELLO" 4 ltac:(lia) ltac:(simpl; lia))
      as [Hret _].
    destruct Hret as (chunks & _ & _ & Hrun); [right; simpl; lia|].
    exists chunks. exact Hrun.
  - destruct (splitString_terminates "ABC" 4 ltac:(lia) ltac:(simpl; lia))
      as [_ Hloop].
    apply Hloop. simpl. lia.
Defined.

(** * Properties of the driver *)

Lemma append_assoc (a b c : string) :
  ((a ++ b) ++ c)%string = (a ++ (b ++ c))%string.
Proof.
  induction a as [|x a IH]; cbn; [reflexivity | now rewrite IH].
Qed.




Lemma for_each_app {St : Type} (l1 l2 : list Z) (body : Z -> St -> outcome St)
    (s : St) :
  for_each (l1 ++ l2) body s = (s' <- for_each l1 body s ;; for_each l2 body s').
Proof.
  revert s. induction l1 as [|i l1 IH]; intros s; cbn; [reflexivity|].
  destruct (body i s); cbn; auto.
Qed.

Lemma indices_last (k : Z) : 1 <= k -> indices k = indices (k - 1) ++ [k - 1].
Proof.
  intros Hk. unfold indices.
  replace (Z.to_nat k) with (S (Z.to_nat (k - 1))) by lia.
  rewrite seq_S, map_app. cbn. do 2 f_equal. lia.
Qed.

Lemma skipn_nth_error {A : Type} (l : list A) :
  forall (a : nat) (x : A),
    nth_error l a = Some x -> skipn a l = x :: skipn (S a) l.
Proof.
  induction l as [|y l IH]; intros [|a] x Hx; cbn in *; try discriminate.
  - congruence.
  - now apply IH.
Qed.

Lemma at_index_of_nat (v : list string) (a : nat) :
  at_index v (Z.of_nat a)
  = match nth_error v a with Some s => Returned s | None => Undefined end.
Proof.
  unfold at_index. destruct (Z.ltb_spec (Z.of_nat a) 0); [lia|].
  now rewrite Nat2Z.id.
Qed.

Lemma append_nil_r (a : string) : (a ++ "")%string = a.
Proof.
  induction a as [|x a IH]; cbn; [reflexivity | now rewrite IH].
Qed.

(** The recombination loop joins the first [nThreads] elements of [substrs],
    and needs them to exist. *)
Lemma combine_loop (substrs : list string) (k : nat) :
  forall (a : nat) (acc out : string),
    (a <= length substrs)%nat ->
    for_each (map Z.of_nat (seq a k)) (combine_body substrs) acc = Returned out ->
    (a + k <= length substrs)%nat
    /\ out = (acc ++ concat_all (firstn k (skipn a substrs)))%string.
Proof.
  induction k as [|k IH]; intros a acc out Ha Hrun; cbn in Hrun.
  - injection Hrun as <-. cbn. rewrite append_nil_r. split; [lia | reflexivity].
  - unfold combine_body at 1 in Hrun. rewrite at_index_of_nat in Hrun.
    destruct (nth_error substrs a) as [x|] eqn:Hx; cbn in Hrun; [|discriminate].
    assert (Hlt : (a < length substrs)%nat).
    { apply nth_error_Some. congruence. }
    apply IH in Hrun; [|lia]. destruct Hrun as [Hlen ->].
    split; [lia|].
    rewrite (skipn_nth_error _ _ _ Hx). cbn. now rewrite append_assoc.
Qed.

Lemma combine_returned (nThreads : Z) (substrs : list string) (out : string) :
  combine nThreads substrs = Returned out ->
  (Z.to_nat nThreads <= length substrs)%nat
  /\ out = concat_all (firstn (Z.to_nat nThreads) substrs).
Proof.
  unfold combine, indices. intros Hrun.
  apply combine_loop in Hrun; [|lia]. exact Hrun.
Qed.

Section DriverFacts.
Context {C : Type} `{Cipher C}.
Variable cipher : C.
Variable cipherMode : CipherMode.
Variable inputText : string.
Variable nThreads : Z.

(** After the launching loop [substrs] holds what the last call of
    [splitString] returned. *)
Lemma launch_returned (fuel : nat) (reads : race)
    (futures substrs : list string) :
  1 <= nThreads ->
  launch cipher cipherMode inputText nThreads fuel reads
  = Returned (futures, substrs) ->
  splitString fuel inputText nThreads = Returned substrs.
Proof.
  intros Hn. unfold launch. rewrite (indices_last nThreads Hn), for_each_app.
  destruct (for_each (indices (nThreads - 1)) _ _) as [[futures' substrs']| | |];
    cbn; try discriminate.
  destruct (splitString fuel inputText nThreads) as [chunks| | |];
    cbn; try discriminate.
  destruct (at_index chunks (reads (nThreads - 1))); cbn; try discriminate.
  congruence.
Qed.

(** What [transform] returns is the join of the first [nThreads] chunks
    of the input, as [splitString] returned them. *)
Lemma transform_returned (fuel : nat) (reads : race) (sched : schedule)
    (r : transformed) :
  1 <= nThreads ->
  transform cipher cipherMode inputText nThreads fuel reads sched = Returned r ->
  exists substrs,
    splitString fuel inputText nThreads = Returned substrs
    /\ (Z.to_nat nThreads <= length substrs)%nat
    /\ outputText r = concat_all (firstn (Z.to_nat nThreads) substrs).
Proof.
  intros Hn. unfold transform.
  destruct (launch cipher cipherMode inputText nThreads fuel reads)
    as [[futures substrs]| | |] eqn:Hlaunch; cbn; try discriminate.
  destruct (wait_loop nThreads fuel sched 0 ready []); cbn; try discriminate.
  destruct (combine nThreads substrs) as [out| | |] eqn:Hout;
    cbn; try discriminate.
  intros [= <-]. cbn.
  exists substrs. split; [eapply launch_returned; eauto|].
  now apply combine_returned.
Qed.

End DriverFacts.

Lemma for_each_returns {St : Type} (idxs : list Z)
    (body : Z -> St -> outcome St) :
  (forall i s, In i idxs -> exists s', body i s = Returned s') ->
  forall s, exists s', for_each idxs body s = Returned s'.
Proof.
  induction idxs as [|i idxs IH]; intros Hbody s; cbn.
  - eauto.
  - destruct (Hbody i s (or_introl eq_refl)) as [s' ->]. cbn.
    apply IH. intros j t Hj. apply Hbody. now right.
Qed.

Lemma indices_In (k i : Z) : In i (indices k) <-> 0 <= i < k.
Proof.
  unfold indices. rewrite in_map_iff. split.
  - intros (a & <- & Ha). apply in_seq in Ha. lia.
  - intros Hi. exists (Z.to_nat i). split; [lia|]. apply in_seq. lia.
Qed.

Lemma at_index_returns (v : list string) (i : Z) :
  0 <= i < Z.of_nat (length v) -> exists s, at_index v i = Returned s.
Proof.
  intros Hi. unfold at_index. destruct (Z.ltb_spec i 0); [lia|].
  destruct (nth_error v (Z.to_nat i)) eqn:Hnth; [eauto|].
  apply nth_error_None in Hnth. lia.
Qed.




Lemma race_in_range_spec (nThreads : Z) (reads : race) :
  race_in_range nThreads reads = true ->
  forall i, 0 <= i < nThreads -> 0 <= reads i <= nThreads.
Proof.
  unfold race_in_range. rewrite forallb_forall. intros Hall i Hi.
  specialize (Hall i (proj2 (indices_In nThreads i) Hi)).
  apply andb_true_iff in Hall. lia.
Qed.

(** When every worker finds an index inside the vector, the launching loop
    returns, and [transform] is the wait followed by the recombination of
    what [splitString] returned. *)
Lemma transform_in_bounds {C : Type} `{Cipher C} (cipher : C) (mode : CipherMode)
    (text : string) (nThreads : Z) (fuel : nat) (reads : race)
    (sched : schedule) (chunks : list string) :
  1 <= nThreads ->
  splitString fuel text nThreads = Returned chunks ->
  (forall i, 0 <= i < nThreads -> 0 <= reads i < Z.of_nat (length chunks)) ->
  transform cipher mode text nThreads fuel reads sched
  = (printed <- wait_loop nThreads fuel sched 0 ready [] ;;
     out <- combine nThreads chunks ;;
     Returned {| progress := printed; outputText := out |}).
Proof.
  intros Hn Hsplit Hreads. unfold transform.
  destruct (for_each_returns (indices nThreads)
              (launch_body cipher mode text nThreads fuel reads))
    with (s := ([] : list string, [] : list string)) as [[futures substrs] Hlaunch].
  { intros i [futures ?] Hi. apply indices_In in Hi.
    unfold launch_body. rewrite Hsplit. cbn.
    destruct (at_index_returns chunks (reads i)) as [s ->]; [auto|]. cbn. eauto. }
  unfold launch. rewrite Hlaunch. cbn [bind].
  assert (Hsub : splitString fuel text nThreads = Returned substrs)
    by (eapply launch_returned; eauto).
  assert (substrs = chunks) by congruence. subst substrs. reflexivity.
Qed.

(** When the worker count does not divide the length there are more chunks
    than workers. *)
Lemma splitString_more_chunks (str : string) (n : Z) (fuel : nat)
    (chunks : list string) :
  1 <= n <= Z.of_nat (String.length str) ->
  Z.rem (Z.of_nat (String.length str)) n <> 0 ->
  splitString fuel str n = Returned chunks ->
  n < Z.of_nat (length chunks).
Proof.
  intros Hn Hrem. unfold splitString.
  destruct (n =? 0); [discriminate|]. intros Hrun.
  apply splitString_loop_count in Hrun. cbn [length] in Hrun.
  pose proof (Z.quot_rem' (Z.of_nat (String.length str)) n) as Heq.
  pose proof (Z.rem_bound_pos (Z.of_nat (String.length str)) n
                ltac:(lia) ltac:(lia)) as Hbound.
  set (len := Z.of_nat (String.length str)) in *.
  assert (Hstep : 1 <= Z.quot len n) by (apply Z.quot_le_lower_bound; lia).
  nia.
Qed.






(** * Where the code departs from the specification *)

(** The chunks overlap: [substr(i, i + part_size)] takes a count, not an
    end position. *)
Lemma splitString_fuel_determined (str : string) (n : Z) (fuel : nat)
    (chunks : list string) :
  splitString fuel str n = Returned chunks ->
  forall fuel' chunks',
    splitString fuel' str n = Returned chunks' -> chunks' = chunks.
Proof.
  unfold splitString. destruct (n =? 0); [discriminate|].
  intros Hrun fuel' chunks' Hrun'.
  destruct (Nat.le_ge_cases fuel fuel') as [Hle|Hle].
  - eapply splitString_loop_fuel_mono in Hrun; [|exact Hle]. congruence.
  - eapply splitString_loop_fuel_mono in Hrun'; [|exact Hle]. congruence.
Qed.

(** C2.  On "ABCDEFGH" with four workers the chunks are "AB", "CDEF",
    "EFGH", "GH": joined in index order they give "ABCDEFEFGHGH", in which
    "EF" and "GH" occur twice, not the original text. *)
Theorem splitString_concat_duplicates :
  splitString 9 "ABCDEFGH" 4 = Returned ["AB"; "CDEF"; "EFGH"; "GH"]
  /\ concat_all ["AB"; "CDEF"; "EFGH"; "GH"] = "ABCDEFEFGHGH"
  /\ concat_all ["AB"; "CDEF"; "EFGH"; "GH"] <> "ABCDEFGH".
Proof.
  repeat split; try reflexivity. discriminate.
Qed.

(** C3.  On the ten characters "ABCDEFGHIJ" with four workers the splitter
    returns five chunks, not four. *)
Theorem splitString_five_chunks :
  splitString 11 "ABCDEFGHIJ" 4
  = Returned ["AB"; "CDEF"; "EFGHIJ"; "GHIJ"; "IJ"]
  /\ length ["AB"; "CDEF"; "EFGHIJ"; "GHIJ"; "IJ"] = 5%nat.
Proof.
  split; reflexivity.
Qed.

(** C4.  On a ten-character input with four workers the chunk sizes are
    2, 4, 6, 4, 2, not 2, 2, 2, 4, and the chunks joined in index order are
    eighteen characters, not the original ten. *)
Theorem splitString_ten_characters :
  forall chunks,
    splitString 11 "0123456789" 4 = Returned chunks ->
    map String.length chunks = [2; 4; 6; 4; 2]%nat
    /\ map String.length chunks <> [2; 2; 2; 4]%nat
    /\ concat_all chunks = "012345456789678989"
    /\ concat_all chunks <> "0123456789".
Proof.
  intros chunks Hrun. vm_compute in Hrun. injection Hrun as <-.
  repeat split; try reflexivity; discriminate.
Qed.

Lemma splitString_ten_characters_witness :
  map String.length ["01"; "2345"; "456789"; "6789"; "89"] = [2; 4; 6; 4; 2]%nat
  /\ map String.length ["01"; "2345"; "456789"; "6789"; "89"] <> [2; 2; 2; 4]%nat
  /\ concat_all ["01"; "2345"; "456789"; "6789"; "89"] = "012345456789678989"
  /\ concat_all ["01"; "2345"; "456789"; "6789"; "89"] <> "0123456789".
Proof.
  apply (splitString_ten_characters ["01"; "2345"; "456789"; "6789"; "89"]).
  reflexivity.
Defined.

(** With more than four chunks every index a worker can find is inside
    the vector: the run of [main] is the wait followed by the
    recombination. *)
Lemma main_in_bounds {C : Type} `{Cipher C} (cipher : C) (mode : CipherMode)
    (text : string) (fuel : nat) (reads : race) (sched : schedule)
    (chunks : list string) :
  splitString fuel text 4 = Returned chunks ->
  (4 < length chunks)%nat ->
  race_in_range 4 reads = true ->
  main cipher mode text fuel reads sched
  = (printed <- wait_loop 4 fuel sched 0 ready [] ;;
     out <- combine 4 chunks ;;
     Returned {| progress := printed; outputText := out |}).
Proof.
  intros Hsplit Hcount Hrace. unfold main. cbv zeta.
  apply transform_in_bounds; [lia | exact Hsplit|].
  intros i Hi. pose proof (race_in_range_spec _ _ Hrace i Hi). lia.
Qed.

(** C5.  With the Caesar cipher of key "3" in mode Encrypt the driver turns
    "HELLO" into "HELLLOLO", whatever index its workers find: the first
    four of the five overlapping chunks "H", "EL", "LLO", "LO", "O", none of
    them enciphered.  The cipher itself maps "HELLO" to "KHOOR". *)
Theorem main_HELLO (reads : race) :
  race_in_range 4 reads = true ->
  cipherFactory standard_fillers Caesar "3" = Constructed (CaesarCipher 3)
  /\ main (CaesarCipher 3) Encrypt "HELLO" 6 reads (fun _ _ => ready)
     = Returned {| progress := []; outputText := "HELLLOLO" |}
  /\ applyCipher (CaesarCipher 3) "HELLO" Encrypt = "KHOOR".
Proof.
  intros Hrace. repeat split; try reflexivity.
  rewrite (main_in_bounds _ _ _ _ _ _ ["H"; "EL"; "LLO"; "LO"; "O"]);
    [reflexivity | reflexivity | cbn; lia | exact Hrace].
Qed.

Lemma main_HELLO_witness :
  main (CaesarCipher 3) Encrypt "HELLO" 6 (fun i => i + 1) (fun _ _ => ready)
  = Returned {| progress := []; outputText := "HELLLOLO" |}.
Proof.
  apply (main_HELLO (fun i => i + 1)). reflexivity.
Defined.

(** C1.  With the Caesar cipher of key 3 in mode Encrypt the driver turns
    "ABCDEFGHI" into "ABCDEFEFGHIGHI", whatever index its workers find: the
    join of the first four chunks as they were split, whereas the join of
    the enciphered chunks is "DEFGHIHIJKLJKLL". *)
Theorem main_not_transformed (reads : race) :
  race_in_range 4 reads = true ->
  main (CaesarCipher 3) Encrypt "ABCDEFGHI" 10 reads (fun _ _ => ready)
  = Returned {| progress := []; outputText := "ABCDEFEFGHIGHI" |}
  /\ splitString 10 "ABCDEFGHI" 4
     = Returned ["AB"; "CDEF"; "EFGHI"; "GHI"; "I"]
  /\ transformed_chunks (CaesarCipher 3) Encrypt
                        ["AB"; "CDEF"; "EFGHI"; "GHI"; "I"]
     = "DEFGHIHIJKLJKLL".
Proof.
  intros Hrace. repeat split; try reflexivity.
  rewrite (main_in_bounds _ _ _ _ _ _ ["AB"; "CDEF"; "EFGHI"; "GHI"; "I"]);
    [reflexivity | reflexivity | cbn; lia | exact Hrace].
Qed.

Lemma main_not_transformed_witness :
  main (CaesarCipher 3) Encrypt "ABCDEFGHI" 10 (fun i => i + 1)
       (fun _ _ => ready)
  = Returned {| progress := []; outputText := "ABCDEFEFGHIGHI" |}.
Proof.
  apply (main_not_transformed (fun i => i + 1)). reflexivity.
Defined.

(** C7.  Whatever the scheduler answers to the polling, however many
    rounds the wait takes and whatever index the workers find, a run of the
    driver on "CAESAR" with the Caesar cipher of key 3 that returns hands
    "CAEESASAR" to the output writer: the text is not altered by the
    polling, and it holds no worker's result (the enciphered chunks are
    "F", "DH", "HVD", "VDU", "DU", "U"). *)
Theorem polling_keeps_untransformed_output :
  forall (fuel : nat) (reads : race) (sched : schedule) (r : transformed),
    main (CaesarCipher 3) Encrypt "CAESAR" fuel reads sched = Returned r ->
    outputText r = "CAEESASAR"
    /\ outputText r <> transformed_chunks (CaesarCipher 3) Encrypt
                                          ["C"; "AE"; "ESA"; "SAR"; "AR"; "R"].
Proof.
  intros fuel reads sched r Hrun.
  unfold main in Hrun. cbv zeta in Hrun.
  apply transform_returned in Hrun; [|lia].
  destruct Hrun as (substrs & Hsplit & _ & ->).
  assert (Hchunks : substrs = ["C"; "AE"; "ESA"; "SAR"; "AR"; "R"]).
  { eapply (splitString_fuel_determined "CAESAR" 4 7); [reflexivity | exact Hsplit]. }
  subst substrs. split; [reflexivity | discriminate].
Qed.

Lemma polling_keeps_untransformed_output_witness :
  outputText {| progress := ["processing"; "processing"; "processing"];
                outputText := "CAEESASAR" |} = "CAEESASAR"
  /\ "CAEESASAR" <> "FDHHVDVDUDUU".
Proof.
  apply (polling_keeps_untransformed_output
           7 (fun i => i + 1)
           (fun round i => if (round <? 2)%nat && (i <? 3) then timeout else ready)).
  vm_compute. reflexivity.
Defined.

(** C8.  On the two characters "AB" with the four workers of [main] the
    step of [splitString] is 0: the call does not return, whatever the fuel,
    and neither does the driver.  (Zero workers would make [splitString]
    divide by zero, but [main] passes the constant 4.) *)
Theorem splitString_short_text_diverges :
  forall (fuel : nat) (reads : race) (sched : schedule) (cipher : AnyCipher)
         (mode : CipherMode),
    splitString fuel "AB" 4 = OutOfFuel
    /\ main cipher mode "AB" fuel reads sched = OutOfFuel
    /\ splitString fuel "AB" 0 = Undefined.
Proof.
  intros fuel reads sched cipher mode.
  assert (Hsplit : splitString fuel "AB" 4 = OutOfFuel).
  { apply (splitString_diverges "AB" 4); cbn; lia. }
  split; [exact Hsplit|]. split; [|reflexivity].
  unfold main, transform, launch. cbn [indices Z.to_nat Pos.to_nat Pos.iter_op Nat.add seq map for_each].
  unfold launch_body at 1. rewrite Hsplit. reflexivity.
Qed.

(** * Decrypt undoes Encrypt *)

(** ** Letters and shifts *)

Lemma pos_letter (p : Z) : 0 <= p < 26 -> pos (letter p) = p.
Proof.
  intros Hp. unfold pos, letter.
  rewrite nat_ascii_embedding by lia. lia.
Qed.

Lemma letter_pos (c : ascii) : letter (pos c) = c.
Proof.
  unfold pos, letter.
  replace (Z.of_nat (nat_of_ascii c) - 65 + 65) with (Z.of_nat (nat_of_ascii c))
    by lia.
  rewrite Nat2Z.id. apply ascii_nat_embedding.
Qed.

Lemma in_alphabet_bounds (c : ascii) : in_alphabet c = true <-> 0 <= pos c < 26.
Proof.
  unfold in_alphabet. rewrite andb_true_iff, Z.leb_le, Z.ltb_lt. reflexivity.
Qed.

Lemma in_alphabet_letter (p : Z) : 0 <= p < 26 -> in_alphabet (letter p) = true.
Proof.
  intros Hp. apply in_alphabet_bounds. now rewrite pos_letter.
Qed.

Lemma shift_letter_in_alphabet (k : Z) (c : ascii) :
  in_alphabet (shift_letter k c) = in_alphabet c.
Proof.
  unfold shift_letter. destruct (in_alphabet c) eqn:Hc; [|exact Hc].
  apply in_alphabet_letter. apply Z.mod_pos_bound. lia.
Qed.

Lemma shift_letter_inverse (k : Z) (c : ascii) :
  shift_letter (- k) (shift_letter k c) = c.
Proof.
  unfold shift_letter at 1. rewrite shift_letter_in_alphabet.
  unfold shift_letter. destruct (in_alphabet c) eqn:Hc; [|reflexivity].
  apply in_alphabet_bounds in Hc.
  rewrite pos_letter by (apply Z.mod_pos_bound; lia).
  rewrite Zplus_mod_idemp_l.
  replace (pos c + k + - k) with (pos c) by lia.
  rewrite Z.mod_small by lia. apply letter_pos.
Qed.

(** ** Caesar and Vigenere *)

Lemma caesar_roundtrip (key : Z) (text : string) :
  caesar_apply key (caesar_apply key text Encrypt) Decrypt = text.
Proof.
  cbn. induction text as [|c text IH]; cbn; [reflexivity|].
  now rewrite shift_letter_inverse, IH.
Qed.

Lemma vigenere_walk_roundtrip (key : list ascii) (text : string) :
  forall j : nat,
    vigenere_walk key Decrypt j (vigenere_walk key Encrypt j text) = text.
Proof.
  induction text as [|c text IH]; intros j; cbn; [reflexivity|].
  destruct (in_alphabet c) eqn:Hc; cbn.
  - rewrite shift_letter_in_alphabet, Hc, shift_letter_inverse. now rewrite IH.
  - rewrite Hc. now rewrite IH.
Qed.

Lemma vigenere_roundtrip (key : list ascii) (text : string) :
  vigenere_apply key (vigenere_apply key text Encrypt) Decrypt = text.
Proof.
  apply vigenere_walk_roundtrip.
Qed.

(** ** Playfair: the key square *)

Lemma mem_In (c : ascii) (l : list ascii) : mem c l = true <-> In c l.
Proof.
  unfold mem. rewrite existsb_exists. split.
  - intros (x & Hx & Heq). apply Ascii.eqb_eq in Heq. now subst.
  - intros Hc. exists c. split; [exact Hc | apply Ascii.eqb_refl].
Qed.

Lemma dedup_In (l : list ascii) :
  forall (seen : list ascii) (x : ascii),
    In x (dedup l seen) <-> In x l /\ ~ In x seen.
Proof.
  induction l as [|c l IH]; intros seen x; cbn.
  - tauto.
  - destruct (mem c seen) eqn:Hc.
    + apply mem_In in Hc. rewrite IH. split.
      * tauto.
      * intros [[->|Hx] Hseen]; tauto.
    + assert (Hc' : ~ In c seen) by (rewrite <- mem_In; congruence).
      cbn. rewrite IH. cbn. split.
      * intros [->|(Hx & Hseen)]; tauto.
      * intros [[->|Hx] Hseen]; [tauto|].
        destruct (ascii_dec c x); tauto.
Qed.

Lemma dedup_NoDup (l : list ascii) : forall seen, NoDup (dedup l seen).
Proof.
  induction l as [|c l IH]; intros seen; cbn.
  - constructor.
  - destruct (mem c seen); [apply IH|].
    constructor; [|apply IH].
    rewrite dedup_In. cbn. tauto.
Qed.

Lemma alphabet25_NoDup : NoDup alphabet25.
Proof.
  unfold alphabet25. cbn.
  repeat (constructor; [cbn; intuition discriminate|]). constructor.
Qed.

Lemma key_square_valid (keyword : string) :
  length (key_square keyword) = 25%nat -> valid_square (key_square keyword).
Proof.
  intros Hlen. unfold valid_square.
  assert (Hnd : NoDup (key_square keyword)) by apply dedup_NoDup.
  assert (Hincl : incl alphabet25 (key_square keyword)).
  { intros c Hc. unfold key_square. rewrite dedup_In, in_app_iff. cbn. tauto. }
  split; [exact Hnd|]. split; [exact Hlen|]. intros c. split.
  - apply (NoDup_length_incl alphabet25_NoDup); [rewrite Hlen; cbn; lia | exact Hincl].
  - apply Hincl.
Qed.

Lemma index_of_In (g : list ascii) (c d : ascii) :
  In c g -> (index_of c g < length g)%nat /\ nth (index_of c g) g d = c.
Proof.
  induction g as [|x g IH]; cbn; [tauto|].
  intros Hc. destruct (Ascii.eqb_spec x c) as [->|Hne].
  - split; [lia | reflexivity].
  - destruct Hc as [Heq|Hc]; [contradiction|].
    destruct (IH Hc). split; [lia | assumption].
Qed.

Lemma index_of_nth (g : list ascii) (d : ascii) :
  NoDup g ->
  forall i, (i < length g)%nat -> index_of (nth i g d) g = i.
Proof.
  induction 1 as [|x g Hx Hnd IH]; intros i Hi; cbn in *; [lia|].
  destruct i as [|i].
  - now rewrite Ascii.eqb_refl.
  - destruct (Ascii.eqb_spec x (nth i g d)) as [Heq|_].
    + exfalso. apply Hx. rewrite Heq. apply nth_In. lia.
    + rewrite IH by lia. reflexivity.
Qed.

(** ** Playfair: the digraph rule *)

Lemma step_lt (mode : CipherMode) (x : nat) : (step mode x < 5)%nat.
Proof.
  destruct mode; cbn [step]; apply Nat.mod_upper_bound; lia.
Qed.

Lemma step_back (x : nat) : (x < 5)%nat -> step Decrypt (step Encrypt x) = x.
Proof.
  intros Hx. do 5 (destruct x as [|x]; [reflexivity|]). lia.
Qed.

Lemma step_injective (x y : nat) :
  (x < 5)%nat -> (y < 5)%nat -> step Encrypt x = step Encrypt y -> x = y.
Proof.
  intros Hx Hy Heq. rewrite <- (step_back x Hx), <- (step_back y Hy).
  now rewrite Heq.
Qed.

Section Square.
Variable g : list ascii.
Hypothesis g_valid : valid_square g.

Lemma square_pos (a : ascii) :
  In a g ->
  (row g a < 5)%nat /\ (col g a < 5)%nat /\ cell g (row g a) (col g a) = a.
Proof.
  destruct g_valid as (_ & Hlen & _). intros Ha.
  destruct (index_of_In g a "A"%char Ha) as [Hlt Hnth]. rewrite Hlen in Hlt.
  unfold row, col, cell. repeat split.
  - apply Nat.Div0.div_lt_upper_bound. lia.
  - apply Nat.mod_upper_bound. lia.
  - rewrite <- Nat.div_mod_eq. exact Hnth.
Qed.

Lemma square_cell (r c : nat) :
  (r < 5)%nat -> (c < 5)%nat ->
  In (cell g r c) g /\ row g (cell g r c) = r /\ col g (cell g r c) = c.
Proof.
  destruct g_valid as (Hnd & Hlen & _). intros Hr Hc.
  assert (Hlt : (5 * r + c < length g)%nat) by lia.
  unfold row, col, cell. rewrite (index_of_nth g _ Hnd _ Hlt). repeat split.
  - apply nth_In. exact Hlt.
  - symmetry. apply (Nat.div_unique _ 5 r c); lia.
  - symmetry. apply (Nat.mod_unique _ 5 r c); lia.
Qed.

Lemma square_cell_mem (r c : nat) :
  (r < 5)%nat -> (c < 5)%nat -> mem (cell g r c) g = true.
Proof.
  intros Hr Hc. apply mem_In. now apply square_cell.
Qed.

(** Encrypting a pair of distinct letters of the square gives a pair of
    distinct letters of the square, which decrypts to the original. *)
Lemma playfair_pair_roundtrip (a b : ascii) :
  In a g -> In b g ->
  let '(x, y) := playfair_pair g Encrypt a b in
  In x g /\ In y g /\ (a <> b -> x <> y)
  /\ playfair_pair g Decrypt x y = (a, b).
Proof.
  intros Ha Hb.
  destruct (square_pos a Ha) as (Hra & Hca & Hcell_a).
  destruct (square_pos b Hb) as (Hrb & Hcb & Hcell_b).
  unfold playfair_pair at 1.
  rewrite (proj2 (mem_In a g) Ha), (proj2 (mem_In b g) Hb). cbn [andb].
  set (ra := row g a) in *. set (ca := col g a) in *.
  set (rb := row g b) in *. set (cb := col g b) in *.
  pose proof (step_lt Encrypt ra) as Hsra. pose proof (step_lt Encrypt rb) as Hsrb.
  pose proof (step_lt Encrypt ca) as Hsca. pose proof (step_lt Encrypt cb) as Hscb.
  destruct (Nat.eqb_spec ra rb) as [Hrow|Hrow];
    [|destruct (Nat.eqb_spec ca cb) as [Hcol|Hcol]].
  - (* same row *)
    destruct (square_cell ra (step Encrypt ca) Hra Hsca) as (Hx & Hrx & Hcx).
    destruct (square_cell rb (step Encrypt cb) Hrb Hscb) as (Hy & Hry & Hcy).
    repeat split; [exact Hx | exact Hy | |].
    + intros Hab Hxy. apply Hab. rewrite <- Hcell_a, <- Hcell_b.
      rewrite Hxy in Hcx. rewrite Hcy in Hcx.
      apply step_injective in Hcx; [|assumption..]. congruence.
    + unfold playfair_pair.
      rewrite square_cell_mem, square_cell_mem by assumption. cbn [andb].
      rewrite Hrx, Hry, Hcx, Hcy.
      destruct (Nat.eqb_spec ra rb) as [_|]; [|contradiction].
      rewrite !step_back by assumption. now rewrite Hcell_a, Hcell_b.
  - (* same column *)
    destruct (square_cell (step Encrypt ra) ca Hsra Hca) as (Hx & Hrx & Hcx).
    destruct (square_cell (step Encrypt rb) cb Hsrb Hcb) as (Hy & Hry & Hcy).
    assert (Hrows : step Encrypt ra <> step Encrypt rb).
    { intros Heq. apply Hrow. now apply step_injective. }
    repeat split; [exact Hx | exact Hy | |].
    + intros _ Hxy. apply Hrows. rewrite <- Hrx, <- Hry. now rewrite Hxy.
    + unfold playfair_pair.
      rewrite square_cell_mem, square_cell_mem by assumption. cbn [andb].
      rewrite Hrx, Hry, Hcx, Hcy.
      destruct (Nat.eqb_spec (step Encrypt ra) (step Encrypt rb)) as [|_];
        [contradiction|].
      destruct (Nat.eqb_spec ca cb) as [_|]; [|contradiction].
      rewrite !step_back by assumption. now rewrite Hcell_a, Hcell_b.
  - (* rectangle *)
    destruct (square_cell ra cb Hra Hcb) as (Hx & Hrx & Hcx).
    destruct (square_cell rb ca Hrb Hca) as (Hy & Hry & Hcy).
    repeat split; [exact Hx | exact Hy | |].
    + intros _ Hxy. apply Hrow. rewrite <- Hrx, <- Hry. now rewrite Hxy.
    + unfold playfair_pair.
      rewrite square_cell_mem, square_cell_mem by assumption. cbn [andb].
      rewrite Hrx, Hry, Hcx, Hcy.
      destruct (Nat.eqb_spec ra rb) as [|_]; [contradiction|].
      destruct (Nat.eqb_spec cb ca) as [|_]; [congruence|].
      now rewrite Hcell_a, Hcell_b.
Qed.

End Square.

(** ** Playfair: preprocessing and the whole text *)

(** Induction over a list two elements at a time, as [digraphs] recurses. *)
Lemma pair_induction (P : list ascii -> Prop) :
  P [] ->
  (forall a, P [a]) ->
  (forall a b l, P l -> P (b :: l) -> P (a :: b :: l)) ->
  forall l, P l.
Proof.
  intros Hnil Hone Hstep l.
  enough (H : P l /\ forall a, P (a :: l)) by apply H.
  induction l as [|b l [IHl IHbl]]; split; auto.
Qed.

Lemma merge_J_alphabet25 (l : list ascii) :
  Forall (fun c => In c alphabet25) l -> map merge_J l = l.
Proof.
  induction 1 as [|c l Hc _ IH]; cbn; [reflexivity|]. rewrite IH. f_equal.
  unfold merge_J. destruct (Ascii.eqb_spec c "J") as [->|_]; [|reflexivity].
  exfalso. cbn in Hc. intuition discriminate.
Qed.

Lemma paired_Forall (g l : list ascii) :
  paired g l -> Forall (fun c => In c g) l.
Proof.
  induction 1; auto.
Qed.

Lemma digraphs_paired_fixed (policy : FillerPolicy) (g l : list ascii) :
  paired g l -> digraphs policy l = l.
Proof.
  induction 1 as [|a b l Ha Hb Hab _ IH]; [reflexivity|].
  cbn [digraphs]. destruct (Ascii.eqb_spec a b); [contradiction|].
  now rewrite IH.
Qed.

Section Fillers.
Variable policy : FillerPolicy.
Hypothesis policy_valid : valid_fillers policy = true.

Lemma valid_fillers_spec (a : ascii) :
  In a alphabet25 ->
  In (split_filler policy a) alphabet25 /\ split_filler policy a <> a
  /\ In (pad_filler policy a) alphabet25 /\ pad_filler policy a <> a.
Proof.
  intros Ha. unfold valid_fillers in policy_valid.
  rewrite forallb_forall in policy_valid. specialize (policy_valid a Ha).
  rewrite !andb_true_iff, !negb_true_iff, !mem_In, !Ascii.eqb_neq
    in policy_valid.
  tauto.
Qed.

(** Preprocessing leaves pairs of distinct letters of the alphabet. *)
Lemma digraphs_paired (l : list ascii) :
  Forall (fun c => In c alphabet25) l ->
  paired alphabet25 (digraphs policy l).
Proof.
  induction l as [|a|a b l IHl IHbl] using pair_induction; intros Hall.
  - constructor.
  - inversion_clear Hall as [|? ? Ha _].
    destruct (valid_fillers_spec a Ha) as (_ & _ & Hpad & Hne).
    cbn. constructor; auto. constructor.
  - inversion_clear Hall as [|? ? Ha Hall'].
    pose proof Hall' as Hbl. inversion_clear Hall' as [|? ? Hb Hl].
    destruct (valid_fillers_spec a Ha) as (Hsplit & Hne & _ & _).
    cbn [digraphs]. destruct (Ascii.eqb_spec a b) as [->|Hab].
    + constructor; auto.
    + constructor; auto.
Qed.

(** Preprocessing only inserts fillers. *)
Lemma digraphs_fillers_inserted (l : list ascii) :
  fillers_inserted policy l (digraphs policy l).
Proof.
  induction l as [|a|a b l IHl IHbl] using pair_induction.
  - constructor.
  - cbn. apply fi_keep. apply fi_pad. constructor.
  - cbn [digraphs]. destruct (Ascii.eqb a b).
    + apply fi_keep. apply fi_split. exact IHbl.
    + apply fi_keep. apply fi_keep. exact IHl.
Qed.

End Fillers.

Section SquareText.
Variable g : list ascii.
Hypothesis g_valid : valid_square g.

Lemma playfair_pairs_roundtrip (l : list ascii) :
  paired g l ->
  paired g (playfair_pairs g Encrypt l)
  /\ playfair_pairs g Decrypt (playfair_pairs g Encrypt l) = l.
Proof.
  induction 1 as [|a b l Ha Hb Hab _ [IHp IHr]]; cbn [playfair_pairs].
  - split; [constructor | reflexivity].
  - pose proof (playfair_pair_roundtrip g g_valid a b Ha Hb) as Hpair.
    destruct (playfair_pair g Encrypt a b) as [x y].
    destruct Hpair as (Hx & Hy & Hxy & Hback).
    cbn [playfair_pairs]. rewrite Hback, IHr.
    split; [constructor; auto | reflexivity].
Qed.

Lemma paired_alphabet25 (l : list ascii) : paired alphabet25 l <-> paired g l.
Proof.
  destruct g_valid as (_ & _ & Hsame).
  split; induction 1; constructor; auto; now apply Hsame.
Qed.

(** Decrypt after Encrypt gives back the preprocessed text. *)
Lemma playfair_roundtrip (policy : FillerPolicy) (text : string) :
  valid_fillers policy = true ->
  Forall (fun c => In c alphabet25) (list_ascii_of_string text) ->
  playfair_apply policy g (playfair_apply policy g text Encrypt) Decrypt
  = string_of_list_ascii (playfair_prepare policy text).
Proof.
  intros Hpolicy Htext. unfold playfair_apply. f_equal.
  assert (Hprep : paired g (playfair_prepare policy text)).
  { apply paired_alphabet25. unfold playfair_prepare.
    rewrite merge_J_alphabet25 by exact Htext.
    now apply digraphs_paired. }
  destruct (playfair_pairs_roundtrip _ Hprep) as [Henc Hback].
  unfold playfair_prepare at 1.
  rewrite list_ascii_of_string_of_list_ascii.
  rewrite merge_J_alphabet25.
  - rewrite (digraphs_paired_fixed policy g) by exact Henc. exact Hback.
  - apply paired_Forall. now apply paired_alphabet25.
Qed.

End SquareText.

(** C6.  For every cipher kind, every key the factory accepts and every
    text over the working alphabet of that kind, applying the constructed
    cipher in mode Decrypt to what it gives in mode Encrypt returns the
    original text; for Playfair it returns the preprocessed text, which is
    the original text with filler letters inserted.  (The filler letters
    are any that belong to the alphabet and differ from the letter they
    follow.) *)
Theorem decrypt_undoes_encrypt (policy : FillerPolicy) (kind : CipherType)
    (rawKey : string) (cipher : AnyCipher) (text : string) :
  valid_fillers policy = true ->
  cipherFactory policy kind rawKey = Constructed cipher ->
  over_alphabet kind text = true ->
  let back := applyCipher cipher (applyCipher cipher text Encrypt) Decrypt in
  match kind with
  | Caesar | Vigenere => back = text
  | Playfair =>
      back = string_of_list_ascii (playfair_prepare policy text)
      /\ fillers_inserted policy (list_ascii_of_string text)
                          (list_ascii_of_string back)
  end.
Proof.
  intros Hpolicy Hkey Htext back. subst back.
  destruct kind; cbn [cipherFactory over_alphabet] in *.
  - destruct (parse_integer rawKey); [|discriminate].
    injection Hkey as <-. apply caesar_roundtrip.
  - destruct (Nat.eqb_spec (length (key_square rawKey)) 25) as [Hlen|];
      [|discriminate].
    injection Hkey as <-. cbn [applyCipher AnyCipher_Cipher].
    rewrite forallb_forall in Htext.
    assert (Hall : Forall (fun c => In c alphabet25) (list_ascii_of_string text)).
    { apply Forall_forall. intros c Hc. apply mem_In. now apply Htext. }
    rewrite (playfair_roundtrip _ (key_square_valid rawKey Hlen) policy text
               Hpolicy Hall).
    split; [reflexivity|].
    rewrite list_ascii_of_string_of_list_ascii. unfold playfair_prepare.
    rewrite (merge_J_alphabet25 _ Hall). apply digraphs_fillers_inserted.
  - destruct (negb _ && _); [|discriminate].
    injection Hkey as <-. apply vigenere_roundtrip.
Qed.

Lemma decrypt_undoes_encrypt_witness :
  applyCipher (CaesarCipher 3) (applyCipher (CaesarCipher 3) "HELLO" Encrypt)
              Decrypt = "HELLO"
  /\ applyCipher (VigenereCipher ["K"; "E"; "Y"]%char)
                 (applyCipher (VigenereCipher ["K"; "E"; "Y"]%char) "HELLO" Encrypt)
                 Decrypt = "HELLO"
  /\ applyCipher (PlayfairCipher standard_fillers (key_square "PLAYFAIREXAMPLE"))
                 (applyCipher
                    (PlayfairCipher standard_fillers (key_square "PLAYFAIREXAMPLE"))
                    "HIDETHEGOLDINTHETREESTUMP" Encrypt)
                 Decrypt
     = string_of_list_ascii
         (playfair_prepare standard_fillers "HIDETHEGOLDINTHETREESTUMP").
Proof.
  split; [|split].
  - apply (decrypt_undoes_encrypt standard_fillers Caesar "3" (CaesarCipher 3)
             "HELLO"); reflexivity.
  - apply (decrypt_undoes_encrypt standard_fillers Vigenere "KEY"
             (VigenereCipher ["K"; "E"; "Y"]%char) "HELLO"); reflexivity.
  - apply (decrypt_undoes_encrypt standard_fillers Playfair "PLAYFAIREXAMPLE"
             (PlayfairCipher standard_fillers (key_square "PLAYFAIREXAMPLE"))
             "HIDETHEGOLDINTHETREESTUMP"); reflexivity.
Defined.

(** * The splitter in closed form *)

Lemma to_size_t_small (z : Z) : 0 <= z < 2 ^ 64 -> to_size_t z = z.
Proof.
  intros Hz. unfold to_size_t. now apply Z.mod_small.
Qed.

(** Truncating division of a length by a positive worker count. *)
Lemma quot_facts (len n : Z) :
  0 <= len -> 1 <= n ->
  0 <= Z.quot len n
  /\ n * Z.quot len n <= len < n * Z.quot len n + n
  /\ Z.rem len n = len - n * Z.quot len n.
Proof.
  intros Hlen Hn.
  pose proof (Z.quot_rem' len n) as Heq.
  pose proof (Z.rem_bound_pos len n Hlen ltac:(lia)) as Hrem.
  assert (0 <= Z.quot len n) by (apply Z.quot_pos; lia).
  lia.
Qed.

Lemma offsets_lt (len p i : Z) :
  1 <= p -> i < len -> offsets len p i = i :: offsets len p (i + p).
Proof.
  intros Hp Hi. unfold offsets.
  replace (len - i + p - 1) with ((len - (i + p) + p - 1) + 1 * p) by lia.
  rewrite Z.div_add by lia.
  assert (0 <= (len - (i + p) + p - 1) / p) by (apply Z.div_pos; lia).
  replace (Z.to_nat ((len - (i + p) + p - 1) / p + 1))
    with (S (Z.to_nat ((len - (i + p) + p - 1) / p))) by lia.
  cbn [seq map]. f_equal; [lia|].
  rewrite <- seq_shift, map_map. apply map_ext. intros k. lia.
Qed.

Lemma offsets_ge (len p i : Z) : 1 <= p -> len <= i -> offsets len p i = [].
Proof.
  intros Hp Hi. unfold offsets.
  assert ((len - i + p - 1) / p < 1) by (apply Z.div_lt_upper_bound; lia).
  replace (Z.to_nat ((len - i + p - 1) / p)) with 0%nat by lia. reflexivity.
Qed.

Section SplitStringClosed.
Variable str : string.
Variable n : Z.

Let str_length := Z.of_nat (String.length str).
Let part_size := Z.quot str_length n.

Hypothesis n_pos : 1 <= n.
Hypothesis fits_int : str_length < 2 ^ 30.

Lemma splitString_chunk_closed (i : Z) :
  0 <= i < str_length ->
  splitString_chunk str n str_length part_size i
  = Returned (chunk_at str part_size i).
Proof.
  intros Hi.
  destruct (quot_facts str_length n ltac:(lia) n_pos) as (Hp & Hnp & Hrem).
  fold part_size in Hp, Hnp, Hrem.
  assert (Hple : part_size <= str_length) by nia.
  unfold splitString_chunk, substr, chunk_at. fold str_length.
  rewrite (to_size_t_small i) by lia.
  destruct (Z.ltb_spec str_length i) as [|_]; [lia|].
  destruct (Z.eqb_spec (Z.rem str_length n) 0) as [Hdiv|Hdiv]; cbn [negb].
  - rewrite to_size_t_small by lia. reflexivity.
  - destruct (Z.geb_spec (i + part_size) str_length) as [Hlast|Hmid].
    + rewrite to_size_t_small by lia.
      assert (1 <= i) by nia.
      do 3 f_equal. lia.
    + rewrite to_size_t_small by lia. reflexivity.
Qed.

Lemma splitString_loop_closed (fuel : nat) :
  1 <= part_size ->
  forall (i : Z) (substrings chunks : list string),
    0 <= i ->
    splitString_loop fuel str n str_length part_size i substrings
    = Returned chunks ->
    chunks = substrings
             ++ map (chunk_at str part_size) (offsets str_length part_size i).
Proof.
  intros Hp. induction fuel as [|fuel IH]; intros i substrings chunks Hi Hrun.
  - discriminate.
  - cbn [splitString_loop] in Hrun.
    destruct (Z.ltb_spec i str_length) as [Hlt|Hge].
    + rewrite splitString_chunk_closed in Hrun by lia. cbn [bind] in Hrun.
      apply IH in Hrun; [|lia].
      rewrite Hrun, (offsets_lt str_length part_size i) by lia.
      cbn [map]. now rewrite <- app_assoc.
    + injection Hrun as <-. rewrite offsets_ge by lia.
      cbn. now rewrite app_nil_r.
Qed.

End SplitStringClosed.

(** X1.  With [1 <= n <= length] (and a length below 2^30) the chunks
    [splitString] returns are, for [k = 0, 1, ...] while [k * p] is below
    the length, the substrings that start at [k * p] and hold
    [(k + 1) * p] characters unless the text ends before, where
    [p = length / n]: each chunk starts one step after the previous one
    but is one step longer. *)
Theorem splitString_closed_form (str : string) (n : Z) (fuel : nat)
    (chunks : list string) :
  let len := Z.of_nat (String.length str) in
  let p := Z.quot len n in
  1 <= n <= len -> len < 2 ^ 30 ->
  splitString fuel str n = Returned chunks ->
  chunks = map (fun k => chunk_at str p (Z.of_nat k * p))
               (seq 0 (Z.to_nat ((len + p - 1) / p))).
Proof.
  intros len p Hn Hlen. unfold splitString.
  destruct (Z.eqb_spec n 0) as [|_]; [lia|]. intros Hrun.
  destruct (quot_facts len n ltac:(lia) ltac:(lia)) as (_ & Hnp & _).
  fold p in Hnp. assert (Hp : 1 <= p) by nia.
  apply splitString_loop_closed in Hrun; try lia; try assumption.
  cbn [app] in Hrun. rewrite Hrun. unfold offsets. rewrite map_map.
  fold len. fold p. replace (len - 0 + p - 1) with (len + p - 1) by lia.
  apply map_ext. intros k. f_equal.
Qed.

Lemma splitString_closed_form_witness :
  ["AB"; "CDEF"; "EFGHIJ"; "GHIJ"; "IJ"]
  = map (fun k => chunk_at "ABCDEFGHIJ" 2 (Z.of_nat k * 2)) (seq 0 5).
Proof.
  apply (splitString_closed_form "ABCDEFGHIJ" 4 11); cbn; try lia. reflexivity.
Defined.

Lemma splitString_loop_offsets (str : string) (n len p : Z) (fuel : nat) :
  1 <= p ->
  forall (i : Z) (substrings chunks : list string),
    splitString_loop fuel str n len p i substrings = Returned chunks ->
    length chunks = (length substrings + length (offsets len p i))%nat.
Proof.
  intros Hp. induction fuel as [|fuel IH]; intros i substrings chunks Hrun.
  - discriminate.
  - cbn [splitString_loop] in Hrun.
    destruct (Z.ltb_spec i len) as [Hlt|Hge].
    + destruct (splitString_chunk str n len p i); cbn [bind] in Hrun;
        try discriminate.
      apply IH in Hrun. rewrite Hrun, (offsets_lt len p i) by lia.
      rewrite length_app. cbn [length]. lia.
    + injection Hrun as <-. rewrite offsets_ge by lia. cbn. lia.
Qed.

(** The number of chunks, for the proofs below. *)
Lemma splitString_count (str : string) (n : Z) (fuel : nat)
    (chunks : list string) :
  1 <= n <= Z.of_nat (String.length str) ->
  splitString fuel str n = Returned chunks ->
  Z.of_nat (length chunks)
  = (Z.of_nat (String.length str)
     + Z.quot (Z.of_nat (String.length str)) n - 1)
    / Z.quot (Z.of_nat (String.length str)) n
  /\ (Z.rem (Z.of_nat (String.length str)) n = 0 ->
      Z.of_nat (length chunks) = n).
Proof.
  intros Hn. unfold splitString.
  destruct (Z.eqb_spec n 0) as [|_]; [lia|]. intros Hrun.
  destruct (quot_facts (Z.of_nat (String.length str)) n ltac:(lia) ltac:(lia))
    as (_ & Hnp & Hrem).
  set (len := Z.of_nat (String.length str)) in *.
  set (p := Z.quot len n) in *.
  assert (Hp : 1 <= p) by nia.
  apply splitString_loop_offsets in Hrun; [|exact Hp].
  unfold offsets in Hrun. rewrite length_map, length_seq in Hrun.
  cbn [length Nat.add] in Hrun.
  replace (len - 0 + p - 1) with (len + p - 1) in Hrun by lia.
  assert (Hcount : 0 <= (len + p - 1) / p) by (apply Z.div_pos; lia).
  rewrite Hrun, Z2Nat.id by exact Hcount.
  split; [reflexivity|].
  intros Hdiv. symmetry. apply (Z.div_unique _ _ _ (p - 1)); [lia|].
  nia.
Qed.

(** X2.  With [1 <= n <= length] (and a length below 2^30) the number of
    chunks [splitString] returns is the length divided by the step
    [p = length / n], rounded up: it is [n] when [n] divides the length,
    and more than [n] otherwise. *)
Theorem splitString_chunk_count (str : string) (n : Z) (fuel : nat)
    (chunks : list string) :
  let len := Z.of_nat (String.length str) in
  let p := Z.quot len n in
  1 <= n <= len -> len < 2 ^ 30 ->
  splitString fuel str n = Returned chunks ->
  Z.of_nat (length chunks) = (len + p - 1) / p
  /\ (Z.rem len n = 0 -> Z.of_nat (length chunks) = n)
  /\ (Z.rem len n <> 0 -> n < Z.of_nat (length chunks)).
Proof.
  intros len p Hn _ Hrun.
  destruct (splitString_count str n fuel chunks Hn Hrun) as [Hcount Hexact].
  split; [exact Hcount|]. split; [exact Hexact|].
  intros Hrem. now apply (splitString_more_chunks str n fuel).
Qed.

Lemma splitString_chunk_count_witness :
  Z.of_nat (length ["H"; "EL"; "LLO"; "LO"; "O"]) = (5 + 1 - 1) / 1
  /\ 4 < Z.of_nat (length ["H"; "EL"; "LLO"; "LO"; "O"]).
Proof.
  destruct (splitString_chunk_count "HELLO" 4 6 ["H"; "EL"; "LLO"; "LO"; "O"])
    as (Hcount & _ & Hmore).
  - cbn. lia.
  - cbn. lia.
  - reflexivity.
  - split; [exact Hcount|]. apply Hmore. cbn. lia.
Defined.

(** ** Substrings *)

Lemma substring_length (s : string) :
  forall a m : nat,
    String.length (substring a m s) = Nat.min m (String.length s - a).
Proof.
  induction s as [|c s IH]; intros [|a] [|m]; cbn; auto;
    rewrite IH; try rewrite Nat.sub_0_r; reflexivity.
Qed.

Lemma substring_whole (s : string) : substring 0 (String.length s) s = s.
Proof.
  induction s as [|c s IH]; cbn; [reflexivity | now rewrite IH].
Qed.

Lemma substring_adjacent (s : string) :
  forall a m k : nat,
    (a + m <= String.length s)%nat ->
    (substring a m s ++ substring (a + m) k s)%string = substring a (m + k) s.
Proof.
  induction s as [|c s IH]; intros a m k Hlen; cbn in Hlen.
  - assert (a = 0%nat) by lia. assert (m = 0%nat) by lia. subst.
    destruct k; reflexivity.
  - destruct a as [|a].
    + destruct m as [|m].
      * cbn. destruct k; reflexivity.
      * cbn. f_equal. apply (IH 0%nat m k). lia.
    + cbn [Nat.add]. cbn [substring]. apply IH. lia.
Qed.

Lemma string_length_app (a b : string) :
  String.length (a ++ b) = (String.length a + String.length b)%nat.
Proof.
  induction a as [|c a IH]; cbn; [reflexivity | now rewrite IH].
Qed.

Lemma chunk_at_length (str : string) (p i : Z) :
  0 <= i <= Z.of_nat (String.length str) -> 0 <= p ->
  Z.of_nat (String.length (chunk_at str p i))
  = Z.min (i + p) (Z.of_nat (String.length str) - i).
Proof.
  intros Hi Hp. unfold chunk_at. rewrite substring_length. lia.
Qed.

(** From any index on, the chunks cover the rest of the text. *)
Lemma chunks_cover (str : string) (p : Z) (m : nat) :
  1 <= p ->
  forall i : Z,
    0 <= i ->
    Z.of_nat (String.length str) - i <= Z.of_nat m ->
    Z.of_nat (String.length str) - i
    <= Z.of_nat (String.length
                   (concat_all (map (chunk_at str p)
                                    (offsets (Z.of_nat (String.length str)) p i)))).
Proof.
  intros Hp. induction m as [|m IH]; intros i Hi Hm.
  - lia.
  - destruct (Z.le_gt_cases (Z.of_nat (String.length str)) i) as [Hge|Hlt].
    + lia.
    + rewrite offsets_lt by lia. cbn [map concat_all fold_right].
      rewrite string_length_app, Nat2Z.inj_add, chunk_at_length by lia.
      destruct (Z.le_gt_cases (Z.of_nat (String.length str)) (i + p)) as [Hend|Hmid].
      * lia.
      * specialize (IH (i + p) ltac:(lia) ltac:(lia)).
        unfold concat_all in IH. lia.
Qed.

(** The closed form, for the proofs below. *)
Lemma splitString_offsets (str : string) (n : Z) (fuel : nat)
    (chunks : list string) :
  1 <= n <= Z.of_nat (String.length str) ->
  Z.of_nat (String.length str) < 2 ^ 30 ->
  splitString fuel str n = Returned chunks ->
  chunks = map (chunk_at str (Z.quot (Z.of_nat (String.length str)) n))
               (offsets (Z.of_nat (String.length str))
                        (Z.quot (Z.of_nat (String.length str)) n) 0).
Proof.
  intros Hn Hlen. unfold splitString.
  destruct (Z.eqb_spec n 0) as [|_]; [lia|]. intros Hrun.
  destruct (quot_facts (Z.of_nat (String.length str)) n ltac:(lia) ltac:(lia))
    as (_ & Hnp & _).
  assert (Hp : 1 <= Z.quot (Z.of_nat (String.length str)) n) by nia.
  exact (splitString_loop_closed str n (proj1 Hn) Hlen fuel Hp 0 [] chunks
           (Z.le_refl 0) Hrun).
Qed.

(** X3.  With [1 <= n <= length] (and a length below 2^30) the chunks
    joined in index order give back the text exactly when there is one
    worker, or two workers and a text of even length; in every other case
    the chunks overlap and their join differs from the text. *)
Theorem splitString_roundtrip_iff (str : string) (n : Z) (fuel : nat)
    (chunks : list string) :
  let len := Z.of_nat (String.length str) in
  1 <= n <= len -> len < 2 ^ 30 ->
  splitString fuel str n = Returned chunks ->
  (concat_all chunks = str <-> n = 1 \/ (n = 2 /\ Z.even len = true)).
Proof.
  intros len Hn Hlen Hrun.
  pose proof (splitString_offsets str n fuel chunks Hn Hlen Hrun) as Hchunks.
  fold len in Hchunks.
  destruct (quot_facts len n ltac:(lia) ltac:(lia)) as (_ & Hnp & _).
  set (p := Z.quot len n) in *.
  assert (Hp : 1 <= p) by nia.
  destruct (Z.le_gt_cases len (2 * p)) as [Hsmall|Hbig].
  - (* one or two chunks, which do not overlap *)
    assert (Hshape : n = 1 \/ (n = 2 /\ Z.even len = true)).
    { destruct (Z.eq_dec n 1) as [|Hn1]; [now left | right].
      assert (n = 2) by nia. split; [assumption|].
      apply Z.even_spec. exists p. nia. }
    split; [intros _; exact Hshape | intros _].
    rewrite Hchunks, (offsets_lt len p 0) by lia.
    destruct (Z.le_gt_cases len p) as [Hone|Htwo].
    + rewrite offsets_ge by lia. cbn [map concat_all fold_right].
      rewrite append_nil_r. unfold chunk_at. fold len.
      replace (Z.to_nat (Z.min (0 + p) (len - 0))) with (String.length str) by lia.
      apply substring_whole.
    + rewrite (offsets_lt len p (0 + p)), offsets_ge by lia.
      cbn [map concat_all fold_right]. rewrite append_nil_r.
      unfold chunk_at. fold len.
      replace (Z.to_nat (Z.min (0 + p) (len - 0))) with (Z.to_nat p) by lia.
      replace (Z.to_nat (Z.min (0 + p + p) (len - (0 + p))))
        with (String.length str - Z.to_nat p)%nat by lia.
      replace (Z.to_nat (0 + p)) with (0 + Z.to_nat p)%nat by lia.
      cbn [Z.to_nat]. rewrite substring_adjacent by lia.
      replace (Z.to_nat p + (String.length str - Z.to_nat p))%nat
        with (String.length str) by lia.
      apply substring_whole.
  - (* at least three chunks: the second is longer than the step *)
    split; intros H; exfalso.
    + apply (f_equal String.length) in H. apply (f_equal Z.of_nat) in H.
      rewrite Hchunks, (offsets_lt len p 0), (offsets_lt len p (0 + p)) in H
        by lia.
      cbn [map concat_all fold_right] in H.
      rewrite !string_length_app, !Nat2Z.inj_add in H.
      rewrite !chunk_at_length in H by lia.
      pose proof (chunks_cover str p (String.length str) Hp (0 + p + p)
                    ltac:(lia) ltac:(lia)) as Hrest.
      unfold concat_all in Hrest. fold len in H, Hrest. lia.
    + destruct H as [->|[-> Heven]]; [lia|].
      apply Z.even_spec in Heven. destruct Heven as [m Hm]. lia.
Qed.

Lemma splitString_roundtrip_iff_witness :
  concat_all ["ABC"; "DEF"] = "ABCDEF"
  /\ concat_all ["AB"; "CDE"; "E"] <> "ABCDE".
Proof.
  split.
  - apply (splitString_roundtrip_iff "ABCDEF" 2 7 ["ABC"; "DEF"]);
      cbn; try lia; try reflexivity.
  - intros Hjoin.
    apply (splitString_roundtrip_iff "ABCDE" 2 7 ["AB"; "CDE"; "E"]) in Hjoin;
      cbn; try lia; try reflexivity.
    destruct Hjoin as [Hone|[_ Heven]]; discriminate.
Defined.

(** X13.  With [1 <= n <= length] (and a length below 2^30) no character
    is dropped by the splitter: the character at position [j] of the text
    is the character at position [j mod p] of chunk [j / p], where
    [p = length / n] is the step. *)
Theorem splitString_covers (str : string) (n : Z) (fuel : nat)
    (chunks : list string) (j : nat) :
  let len := Z.of_nat (String.length str) in
  let p := Z.to_nat (Z.quot len n) in
  1 <= n <= len -> len < 2 ^ 30 ->
  splitString fuel str n = Returned chunks ->
  (j < String.length str)%nat ->
  exists chunk,
    nth_error chunks (j / p) = Some chunk
    /\ String.get (j mod p) chunk = String.get j str.
Proof.
  intros len p Hn Hlen Hrun Hj.
  pose proof (splitString_offsets str n fuel chunks Hn Hlen Hrun) as Hchunks.
  fold len in Hchunks.
  destruct (quot_facts len n ltac:(lia) ltac:(lia)) as (_ & Hnp & _).
  assert (Hq : 1 <= Z.quot len n) by nia.
  assert (Hp : Z.quot len n = Z.of_nat p) by (unfold p; lia).
  rewrite Hp in Hchunks.
  assert (Hp1 : (1 <= p)%nat) by lia.
  pose proof (Nat.div_mod_eq j p) as Hdiv.
  pose proof (Nat.mod_upper_bound j p ltac:(lia)) as Hmod.
  set (k := (j / p)%nat) in *. set (o := (j mod p)%nat) in *.
  exists (chunk_at str (Z.of_nat p) (Z.of_nat k * Z.of_nat p)). split.
  - rewrite Hchunks. unfold offsets. rewrite map_map.
    replace (0 + Z.of_nat k * Z.of_nat p) with (Z.of_nat k * Z.of_nat p) by lia.
    rewrite (nth_error_map
               (fun x => chunk_at str (Z.of_nat p) (0 + Z.of_nat x * Z.of_nat p))).
    rewrite nth_error_seq.
    assert (Hk : (k < Z.to_nat ((len - 0 + Z.of_nat p - 1) / Z.of_nat p))%nat).
    { assert (Z.of_nat k + 1 <= (len - 0 + Z.of_nat p - 1) / Z.of_nat p)
        by (apply Z.div_le_lower_bound; nia).
      lia. }
    destruct (Nat.ltb_spec k (Z.to_nat ((len - 0 + Z.of_nat p - 1) / Z.of_nat p)));
      [|lia].
    reflexivity.
  - unfold chunk_at. fold len. rewrite substring_correct1 by nia.
    f_equal. nia.
Qed.

Lemma splitString_covers_witness :
  exists chunk,
    nth_error ["H"; "EL"; "LLO"; "LO"; "O"] (4 / 1) = Some chunk
    /\ String.get (4 mod 1) chunk = String.get 4 "HELLO".
Proof.
  apply (splitString_covers "HELLO" 4 6 ["H"; "EL"; "LLO"; "LO"; "O"] 4).
  - cbn. lia.
  - cbn. lia.
  - reflexivity.
  - cbn. lia.
Defined.

(** X4.  A negative worker count (and a length below 2^30): on a text of
    at least [-n] characters [splitString] pushes one chunk and then calls
    [substr] with a negative index, which [std::size_t] turns into one past
    the end: [std::out_of_range] is thrown.  On a shorter non-empty text
    the step is 0 and the call does not return. *)
Theorem splitString_negative_count (str : string) (n : Z) :
  let len := Z.of_nat (String.length str) in
  n < 0 -> len < 2 ^ 30 ->
  (- n <= len ->
   forall fuel, (2 <= fuel)%nat -> splitString fuel str n = OutOfRange)
  /\ (0 < len < - n -> forall fuel, splitString fuel str n = OutOfFuel).
Proof.
  intros len Hn Hlen.
  assert (Hquot : Z.quot len n = - Z.quot len (- n)).
  { rewrite <- (Z.opp_involutive n) at 1. apply Z.quot_opp_r. lia. }
  split.
  - intros Hge fuel Hfuel.
    destruct (quot_facts len (- n) ltac:(lia) ltac:(lia)) as (_ & Hnp & _).
    assert (Hp : - len <= Z.quot len n <= -1) by nia.
    unfold splitString. destruct (Z.eqb_spec n 0) as [|_]; [lia|].
    fold len. set (p := Z.quot len n) in *.
    destruct fuel as [|[|fuel]]; try lia.
    cbn [splitString_loop].
    destruct (Z.ltb_spec 0 len) as [_|]; [|lia].
    destruct (splitString_chunk_returns str n 0 ltac:(lia)) as [chunk Hchunk].
    fold len in Hchunk. fold p in Hchunk. rewrite Hchunk. cbn [bind].
    destruct (Z.ltb_spec (0 + p) len) as [_|]; [|lia].
    assert (Hwrap : to_size_t (0 + p) = p + 2 ^ 64).
    { unfold to_size_t. symmetry. apply (Z.mod_unique _ _ (-1)); lia. }
    assert (Hthrow : forall count,
               substr str (to_size_t (0 + p)) count = OutOfRange).
    { intros count. unfold substr. fold len. rewrite Hwrap.
      destruct (Z.ltb_spec len (p + 2 ^ 64)) as [_|]; [reflexivity | lia]. }
    unfold splitString_chunk. rewrite !Hthrow.
    destruct (negb _); [destruct (_ >=? _)|]; reflexivity.
  - intros Hshort fuel.
    unfold splitString. destruct (Z.eqb_spec n 0) as [|_]; [lia|].
    apply splitString_loop_stuck; [|lia].
    fold len. rewrite Hquot, Z.quot_small by lia. reflexivity.
Qed.

Lemma splitString_negative_count_witness :
  splitString 2 "ABCDE" (-2) = OutOfRange
  /\ splitString 9 "A" (-2) = OutOfFuel.
Proof.
  destruct (splitString_negative_count "ABCDE" (-2)) as [Hthrow _];
    [lia | cbn; lia |].
  destruct (splitString_negative_count "A" (-2)) as [_ Hloop];
    [lia | cbn; lia |].
  split; [apply Hthrow; cbn; lia | apply Hloop; cbn; lia].
Defined.

(** * More on the driver *)

(** A run of [main] that returns had at least four characters to split. *)
Lemma main_returned_length {C : Type} `{Cipher C} (cipher : C)
    (mode : CipherMode) (text : string) (fuel : nat) (reads : race)
    (sched : schedule) (r : transformed) :
  main cipher mode text fuel reads sched = Returned r ->
  4 <= Z.of_nat (String.length text)
  /\ exists substrs,
       splitString fuel text 4 = Returned substrs
       /\ outputText r = concat_all (firstn 4 substrs).
Proof.
  intros Hrun. unfold main in Hrun. cbv zeta in Hrun.
  apply transform_returned in Hrun; [|lia].
  destruct Hrun as (substrs & Hsplit & Hcount & Hout). cbn in Hcount.
  split; [|eauto].
  destruct (Z.le_gt_cases 4 (Z.of_nat (String.length text))) as [|Hshort];
    [assumption | exfalso].
  destruct (Z.eq_dec (Z.of_nat (String.length text)) 0) as [Hempty|Hne].
  - destruct (splitString_returns text 4 ltac:(lia) (or_introl Hempty))
      as (chunks & Hnil & Hret).
    specialize (Hret (S (String.length text)) ltac:(lia)).
    rewrite (splitString_fuel_determined _ _ _ _ Hret _ _ Hsplit) in Hcount.
    rewrite (Hnil Hempty) in Hcount. cbn in Hcount. lia.
  - destruct (splitString_diverges text 4 ltac:(lia)) as [_ Hloop].
    rewrite Hloop in Hsplit. discriminate.
Qed.

(** The text a run of [main] returns, piece by piece. *)
Lemma main_output_chunks {C : Type} `{Cipher C} (cipher : C)
    (mode : CipherMode) (text : string) (fuel : nat) (reads : race)
    (sched : schedule) (r : transformed) :
  Z.of_nat (String.length text) < 2 ^ 30 ->
  main cipher mode text fuel reads sched = Returned r ->
  4 <= Z.of_nat (String.length text)
  /\ outputText r
     = (chunk_at text (Z.quot (Z.of_nat (String.length text)) 4) 0
        ++ chunk_at text (Z.quot (Z.of_nat (String.length text)) 4)
                    (Z.quot (Z.of_nat (String.length text)) 4)
        ++ chunk_at text (Z.quot (Z.of_nat (String.length text)) 4)
                    (2 * Z.quot (Z.of_nat (String.length text)) 4)
        ++ chunk_at text (Z.quot (Z.of_nat (String.length text)) 4)
                    (3 * Z.quot (Z.of_nat (String.length text)) 4))%string.
Proof.
  intros Hlen Hrun.
  destruct (main_returned_length _ _ _ _ _ _ _ Hrun)
    as (Hfour & substrs & Hsplit & Hout).
  split; [exact Hfour|].
  pose proof (splitString_offsets text 4 fuel substrs ltac:(lia) Hlen Hsplit)
    as Hchunks.
  destruct (quot_facts (Z.of_nat (String.length text)) 4 ltac:(lia) ltac:(lia))
    as (_ & Hnp & _).
  set (len := Z.of_nat (String.length text)) in *.
  set (p := Z.quot len 4) in *.
  rewrite (offsets_lt len p 0), (offsets_lt len p (0 + p)),
    (offsets_lt len p (0 + p + p)), (offsets_lt len p (0 + p + p + p))
    in Hchunks by lia.
  rewrite Hout, Hchunks. cbn [map firstn concat_all fold_right].
  rewrite append_nil_r.
  replace (0 + p) with p by lia.
  replace (p + p) with (2 * p) by lia.
  replace (2 * p + p) with (3 * p) by lia. reflexivity.
Qed.

(** X5.  Whatever the cipher, the mode, the scheduling and the index the
    workers find, the text a run
    of [main] returns (on an input below 2^30 characters) is made of four
    overlapping pieces of the input, which start at [0], [p], [2p] and
    [3p] with [p = length / 4], and it is strictly longer than the
    input. *)
Theorem main_output_longer {C : Type} `{Cipher C} (cipher : C)
    (mode : CipherMode) (text : string) (fuel : nat) (reads : race)
    (sched : schedule) (r : transformed) :
  let len := Z.of_nat (String.length text) in
  let p := Z.quot len 4 in
  len < 2 ^ 30 ->
  main cipher mode text fuel reads sched = Returned r ->
  outputText r
  = (chunk_at text p 0 ++ chunk_at text p p
     ++ chunk_at text p (2 * p) ++ chunk_at text p (3 * p))%string
  /\ (String.length text < String.length (outputText r))%nat.
Proof.
  intros len p Hlen Hrun.
  destruct (main_output_chunks _ _ _ _ _ _ _ Hlen Hrun) as [Hfour Hjoin].
  fold len in Hfour, Hjoin. fold p in Hjoin.
  destruct (quot_facts len 4 ltac:(lia) ltac:(lia)) as (_ & Hnp & _).
  fold p in Hnp.
  split; [exact Hjoin|].
  apply Nat2Z.inj_lt. rewrite Hjoin, !string_length_app, !Nat2Z.inj_add.
  rewrite !chunk_at_length by lia. fold len. lia.
Qed.

Lemma main_output_longer_witness :
  "HELLLOLO" = (chunk_at "HELLO" 1 0 ++ chunk_at "HELLO" 1 1
                ++ chunk_at "HELLO" 1 (2 * 1) ++ chunk_at "HELLO" 1 (3 * 1))%string
  /\ (String.length "HELLO" < String.length "HELLLOLO")%nat.
Proof.
  apply (main_output_longer (CaesarCipher 3) Encrypt "HELLO" 6
           (fun i => i + 1) (fun _ _ => ready)
           {| progress := []; outputText := "HELLLOLO" |}).
  - cbn. lia.
  - vm_compute. reflexivity.
Defined.

(** X6.  The text a run of [main] returns depends on the input text
    alone: two runs on the same input that return, with whatever ciphers,
    modes, fuels, answers of the scheduler and indices found by the
    workers, return the same text. *)
Theorem main_output_depends_on_input_only
    {C1 C2 : Type} `{Cipher C1} `{Cipher C2} (c1 : C1) (c2 : C2)
    (m1 m2 : CipherMode) (text : string) (fuel1 fuel2 : nat)
    (reads1 reads2 : race) (sched1 sched2 : schedule) (r1 r2 : transformed) :
  main c1 m1 text fuel1 reads1 sched1 = Returned r1 ->
  main c2 m2 text fuel2 reads2 sched2 = Returned r2 ->
  outputText r1 = outputText r2.
Proof.
  intros Hrun1 Hrun2.
  destruct (main_returned_length _ _ _ _ _ _ _ Hrun1) as (_ & s1 & Hs1 & ->).
  destruct (main_returned_length _ _ _ _ _ _ _ Hrun2) as (_ & s2 & Hs2 & ->).
  now rewrite (splitString_fuel_determined _ _ _ _ Hs1 _ _ Hs2).
Qed.

Lemma main_output_depends_on_input_only_witness :
  outputText {| progress := []; outputText := "ABCDEFEFGHIJGHIJ" |}
  = outputText {| progress := repeat "processing" 12;
                  outputText := "ABCDEFEFGHIJGHIJ" |}.
Proof.
  apply (main_output_depends_on_input_only
           (CaesarCipher 3) (VigenereCipher ["K"; "E"; "Y"]%char)
           Encrypt Decrypt "ABCDEFGHIJ" 11 20
           (fun i => i + 1) (fun i => i)
           (fun _ _ => ready)
           (fun round i => if (round <? 3)%nat then timeout else ready)
           {| progress := []; outputText := "ABCDEFEFGHIJGHIJ" |}
           {| progress := repeat "processing" 12;
              outputText := "ABCDEFEFGHIJGHIJ" |});
    vm_compute; reflexivity.
Defined.

(** A loop whose bodies return or have undefined behaviour, and one of
    whose bodies has undefined behaviour, has undefined behaviour. *)
Lemma for_each_undefined {St : Type} (idxs : list Z)
    (body : Z -> St -> outcome St) (k : Z) :
  In k idxs ->
  (forall s, body k s = Undefined) ->
  (forall i s, In i idxs ->
               body i s = Undefined \/ exists s', body i s = Returned s') ->
  forall s, for_each idxs body s = Undefined.
Proof.
  induction idxs as [|i idxs IH]; intros Hk Hbad Hbody s; [contradiction|].
  cbn [for_each].
  destruct (Z.eq_dec i k) as [->|Hne].
  - now rewrite Hbad.
  - destruct (Hbody i s (or_introl eq_refl)) as [->|[s' ->]]; [reflexivity|].
    cbn [bind]. apply IH.
    + destruct Hk as [|Hk]; [contradiction | exact Hk].
    + exact Hbad.
    + intros j t Hj. apply Hbody. now right.
Qed.

(** X14.  On a text whose length is a multiple of four (at least four and
    below 2^30) [splitString] returns exactly four chunks, so a worker that
    runs once the loop variable has reached 4 reads [substrs[4]], one past
    the end of the vector: the run has undefined behaviour, whatever the
    cipher, the mode and the answers of [wait_for]. *)
Theorem main_worker_reads_past_end {C : Type} `{Cipher C} (cipher : C)
    (mode : CipherMode) (text : string) (fuel : nat) (reads : race)
    (sched : schedule) :
  let len := Z.of_nat (String.length text) in
  4 <= len < 2 ^ 30 ->
  Z.rem len 4 = 0 ->
  (String.length text < fuel)%nat ->
  (exists i, 0 <= i < 4 /\ reads i = 4) ->
  main cipher mode text fuel reads sched = Undefined.
Proof.
  intros len Hlen Hrem Hfuel (k & Hk & Hreads).
  destruct (splitString_returns text 4 ltac:(lia) (or_intror (proj1 Hlen)))
    as (chunks & _ & Hsplit).
  specialize (Hsplit fuel Hfuel).
  destruct (splitString_count text 4 fuel chunks ltac:(lia) Hsplit)
    as [_ Hcount].
  specialize (Hcount Hrem).
  unfold main, transform, launch. cbv zeta.
  rewrite (for_each_undefined (indices 4)
             (launch_body cipher mode text 4 fuel reads) k); [reflexivity| | |].
  - now apply indices_In.
  - intros [futures ?]. unfold launch_body. rewrite Hsplit. cbn [bind].
    rewrite Hreads. unfold at_index. cbn [Z.ltb Z.compare Z.to_nat].
    destruct (nth_error chunks (Pos.to_nat 4)) eqn:Hnth; [|reflexivity].
    assert (Hsome : nth_error chunks (Pos.to_nat 4) <> None) by congruence.
    apply nth_error_Some in Hsome. lia.
  - intros i [futures ?] Hi. unfold launch_body. rewrite Hsplit. cbn [bind].
    unfold at_index. destruct (reads i <? 0); [now left|].
    destruct (nth_error chunks (Z.to_nat (reads i))); cbn [bind]; eauto.
Qed.

Lemma main_worker_reads_past_end_witness :
  main (CaesarCipher 3) Encrypt "ABCDEFGH" 9 (fun i => i + 1) (fun _ _ => ready)
  = Undefined.
Proof.
  apply (main_worker_reads_past_end (CaesarCipher 3) Encrypt "ABCDEFGH" 9
           (fun i => i + 1) (fun _ _ => ready)).
  - vm_compute. split; [discriminate | reflexivity].
  - reflexivity.
  - simpl. lia.
  - exists 3. split; [lia | reflexivity].
Defined.

(** ** The polling *)

Lemma last_cons {A : Type} (x d : A) (l : list A) : last (x :: l) d = last l x.
Proof.
  revert x d. induction l as [|y l IH]; intros x d; [reflexivity|].
  change (last (x :: y :: l) d) with (last (y :: l) d).
  now rewrite (IH y d), (IH y x).
Qed.

(** One round of polling: [status] ends as the answer for the last future
    and one line is printed per future that timed out. *)
Lemma poll_round_closed (sched : schedule) (round : nat) (idxs : list Z) :
  forall (status : future_status) (printed : list string),
    for_each idxs (poll_body sched round) (status, printed)
    = Returned (last (map (sched round) idxs) status,
                printed
                ++ map (fun _ => "processing")
                       (filter (fun i => future_status_eqb (sched round i) timeout)
                               idxs)).
Proof.
  induction idxs as [|i idxs IH]; intros status printed; cbn [for_each].
  - cbn. now rewrite app_nil_r.
  - unfold poll_body at 1. cbn [map filter]. rewrite last_cons.
    destruct (future_status_eqb (sched round i) timeout); cbn [bind];
      rewrite IH; [|reflexivity].
    cbn [map]. now rewrite <- app_assoc.
Qed.

Lemma last_indices (nThreads : Z) (f : Z -> future_status) (d : future_status) :
  1 <= nThreads -> last (map f (indices nThreads)) d = f (nThreads - 1).
Proof.
  intros Hn. rewrite (indices_last nThreads Hn), map_app. cbn [map].
  apply last_last.
Qed.

(** X7.  The wait looks at the answer for the last future only.  It ends
    with the first round in which [wait_for] reports the last future ready,
    whatever it reports for the others, having printed one progress line
    for every answer [timeout] up to and including that round; while the
    last future is not reported ready the wait goes on. *)
Theorem wait_loop_closed_form (nThreads : Z) (sched : schedule) :
  1 <= nThreads ->
  (forall (k fuel round : nat) (status : future_status) (printed : list string),
      (k < fuel)%nat ->
      (forall j, (j < k)%nat -> sched (round + j)%nat (nThreads - 1) <> ready) ->
      sched (round + k)%nat (nThreads - 1) = ready ->
      wait_loop nThreads fuel sched round status printed
      = Returned (printed ++ rounds_lines nThreads sched round k))
  /\ (forall (fuel round : nat) (status : future_status) (printed : list string),
         (forall j, (j < fuel)%nat ->
                    sched (round + j)%nat (nThreads - 1) <> ready) ->
         wait_loop nThreads fuel sched round status printed = OutOfFuel).
Proof.
  intros Hn. split.
  - induction k as [|k IH]; intros fuel round status printed Hfuel Hwait Hready;
      (destruct fuel as [|fuel]; [lia|]); cbn [wait_loop];
      rewrite poll_round_closed; cbn [bind]; rewrite last_indices by exact Hn.
    + rewrite Nat.add_0_r in Hready. rewrite Hready. reflexivity.
    + assert (Hnot : sched round (nThreads - 1) <> ready).
      { specialize (Hwait 0%nat ltac:(lia)). now rewrite Nat.add_0_r in Hwait. }
      assert (Hgo : future_status_eqb (sched round (nThreads - 1)) ready = false)
        by (destruct (sched round (nThreads - 1)) eqn:Hlast; [contradiction | reflexivity | reflexivity]).
      rewrite Hgo, IH.
      * cbn [rounds_lines]. unfold round_lines. now rewrite <- app_assoc.
      * lia.
      * intros j Hj. specialize (Hwait (S j) ltac:(lia)).
        now rewrite Nat.add_succ_comm.
      * now rewrite Nat.add_succ_comm.
  - induction fuel as [|fuel IH]; intros round status printed Hwait;
      [reflexivity|].
    cbn [wait_loop]. rewrite poll_round_closed. cbn [bind].
    rewrite last_indices by exact Hn.
    assert (Hnot : sched round (nThreads - 1) <> ready).
    { specialize (Hwait 0%nat ltac:(lia)). now rewrite Nat.add_0_r in Hwait. }
    assert (Hgo : future_status_eqb (sched round (nThreads - 1)) ready = false)
      by (destruct (sched round (nThreads - 1)) eqn:Hlast; [contradiction | reflexivity | reflexivity]).
    rewrite Hgo. apply IH. intros j Hj. specialize (Hwait (S j) ltac:(lia)).
    now rewrite Nat.add_succ_comm.
Qed.

Lemma wait_loop_closed_form_witness :
  wait_loop 4 5
            (fun round i => if (round <? 1)%nat || (i <? 3) then timeout else ready)
            0 ready []
  = Returned (repeat "processing" 7).
Proof.
  destruct (wait_loop_closed_form
              4 (fun round i => if (round <? 1)%nat || (i <? 3) then timeout
                                else ready)) as [Hends _]; [lia|].
  apply (Hends 1%nat 5%nat 0%nat ready []).
  - lia.
  - intros j Hj. assert (j = 0%nat) by lia. subst j. cbn. discriminate.
  - reflexivity.
Defined.

(** * The whole program *)

Lemma read_text_app (transformChar : ascii -> string) (a b : string) :
  Program.read_text transformChar (a ++ b)
  = (Program.read_text transformChar a ++ Program.read_text transformChar b)%string.
Proof.
  induction a as [|c a IH]; cbn; [reflexivity|].
  destruct (Program.isspace c); [exact IH|].
  now rewrite IH, append_assoc.
Qed.

(** X8.  Reading the input skips white space: a blank, a tabulation or a
    line break anywhere in the stream does not change the text read, and
    the text read from a stream is the text read from its beginning
    followed by the text read from its end. *)
Theorem read_text_skips_whitespace (transformChar : ascii -> string)
    (a b : string) (c : ascii) :
  Program.read_text transformChar (a ++ b)
  = (Program.read_text transformChar a ++ Program.read_text transformChar b)%string
  /\ (Program.isspace c = true ->
      Program.read_text transformChar (a ++ String c b)
      = Program.read_text transformChar (a ++ b)).
Proof.
  split; [apply read_text_app|].
  intros Hc. rewrite !read_text_app. cbn [Program.read_text]. now rewrite Hc.
Qed.

Lemma read_text_skips_whitespace_witness :
  Program.read_text (fun c => String c "") ("HELLO" ++ String " " "WORLD")
  = Program.read_text (fun c => String c "") ("HELLO" ++ "WORLD").
Proof.
  apply (read_text_skips_whitespace (fun c => String c "") "HELLO" "WORLD" " ").
  reflexivity.
Defined.

(** ** Exit codes and what is written *)

Lemma wait_loop_progress (nThreads : Z) (sched : schedule) (fuel : nat) :
  forall (round : nat) (status : future_status) (printed out : list string),
    Forall (eq "processing") printed ->
    wait_loop nThreads fuel sched round status printed = Returned out ->
    Forall (eq "processing") out.
Proof.
  induction fuel as [|fuel IH]; intros round status printed out Hprinted Hrun.
  - discriminate.
  - cbn [wait_loop] in Hrun. rewrite poll_round_closed in Hrun.
    cbn [bind] in Hrun.
    assert (Hround : Forall (eq "processing")
                       (printed
                        ++ map (fun _ : Z => "processing")
                             (filter
                                (fun i => future_status_eqb (sched round i) timeout)
                                (indices nThreads)))).
    { apply Forall_app. split; [exact Hprinted|].
      apply Forall_forall. intros line Hline. apply in_map_iff in Hline.
      destruct Hline as (_ & <- & _). reflexivity. }
    destruct (future_status_eqb _ ready).
    + now injection Hrun as <-.
    + eapply IH; eauto.
Qed.

Lemma main_progress {C : Type} `{Cipher C} (cipher : C) (mode : CipherMode)
    (text : string) (fuel : nat) (reads : race) (sched : schedule)
    (r : transformed) :
  main cipher mode text fuel reads sched = Returned r ->
  Forall (eq "processing") (progress r).
Proof.
  unfold main, transform. cbv zeta.
  destruct (launch cipher mode text 4 fuel reads) as [[futures substrs]| | |];
    cbn [bind]; try discriminate.
  destruct (wait_loop 4 fuel sched 0 ready []) as [printed| | |] eqn:Hwait;
    cbn [bind]; try discriminate.
  destruct (combine 4 substrs); cbn [bind]; try discriminate.
  intros [= <-]. cbn. eapply wait_loop_progress; [|exact Hwait]. constructor.
Qed.

Lemma append_endl (message : string) : (message ++ Program.endl)%string <> "".
Proof.
  destruct message; discriminate.
Qed.

(** X9.  When [main] returns (a run that is killed or has undefined
    behaviour does not), it returns 0 or 1.  It returns 1 exactly when it
    wrote an error message to [std::cerr]; then no file was written and
    nothing but progress lines went to [std::cout]: a run in which [main]
    returns writes the processed text in full or not at all. *)
Theorem program_exit_discipline {C : Type} `{Cipher C}
    (env : Program.Environment C) (cmdLineArgs : list string) (fuel : nat)
    (e : Program.Execution) :
  Program.main env cmdLineArgs fuel = Returned e ->
  (Program.exit_code e = 0 \/ Program.exit_code e = 1)
  /\ (Program.exit_code e = 1 <-> Program.cerr e <> "")
  /\ (Program.exit_code e = 1 ->
      Program.written e = None
      /\ exists lines,
           Forall (eq "processing") lines
           /\ Program.cout e = Program.print_progress lines).
Proof.
  assert (Hfail : forall printed message lines,
             Forall (eq "processing") lines ->
             printed = Program.print_progress lines ->
             forall e, Returned (Program.failure printed message) = Returned e ->
             (Program.exit_code e = 0 \/ Program.exit_code e = 1)
             /\ (Program.exit_code e = 1 <-> Program.cerr e <> "")
             /\ (Program.exit_code e = 1 ->
                 Program.written e = None
                 /\ exists lines,
                      Forall (eq "processing") lines
                      /\ Program.cout e = Program.print_progress lines)).
  { intros printed message lines Hlines Hprinted e' [= <-]. cbn.
    split; [now right|]. split.
    - split; [intros _; apply append_endl | reflexivity].
    - intros _. split; [reflexivity|]. exists lines. now split. }
  assert (Hok : forall printed file e,
             Returned (Program.success printed file) = Returned e ->
             (Program.exit_code e = 0 \/ Program.exit_code e = 1)
             /\ (Program.exit_code e = 1 <-> Program.cerr e <> "")
             /\ (Program.exit_code e = 1 ->
                 Program.written e = None
                 /\ exists lines,
                      Forall (eq "processing") lines
                      /\ Program.cout e = Program.print_progress lines)).
  { intros printed file e' [= <-]. cbn.
    split; [now left|]. split.
    - split; [discriminate | intros Hne; now contradiction Hne].
    - discriminate. }
  unfold Program.main.
  destruct (Program.processCommandLine env cmdLineArgs Program.default_settings)
    as [settings|what|what];
    [|apply (Hfail _ _ []); [constructor | reflexivity]..].
  destruct (Program.helpRequested settings); [apply Hok|].
  destruct (Program.versionRequested settings); [apply Hok|].
  destruct (Program.input_stream env settings) as [content|];
    [|apply (Hfail _ _ []); [constructor | reflexivity]].
  destruct (Program.cipherFactory env _ _) as [what| |cipher];
    [apply (Hfail _ _ []); [constructor | reflexivity]..|].
  destruct (main cipher _ _ fuel _ _) as [r| | |] eqn:Hrun; cbn [bind];
    try discriminate.
  destruct (negb _); [|apply Hok].
  destruct (Program.open_ofstream env _); [apply Hok|].
  apply (Hfail _ _ (progress r)); [|reflexivity].
  eapply main_progress; eauto.
Qed.

Lemma program_exit_discipline_witness :
  Program.exit_code
    (Program.failure (Program.print_progress (repeat "processing" 4))
                     "[error] failed to create ostream on file 'nowhere/out'")
  = 1
  <-> Program.cerr
        (Program.failure (Program.print_progress (repeat "processing" 4))
                         "[error] failed to create ostream on file 'nowhere/out'")
      <> "".
Proof.
  apply (program_exit_discipline
           Program.example_environment
           ["mpags-cipher"; "-k"; "3"; "-o"; "nowhere/out"] 20).
  vm_compute. reflexivity.
Defined.

(** ** Texts of fewer than four characters *)

Lemma main_empty {C : Type} `{Cipher C} (cipher : C) (mode : CipherMode)
    (fuel : nat) (reads : race) (sched : schedule) :
  main cipher mode "" (S fuel) reads sched = Undefined.
Proof.
  unfold main, transform, launch. cbv zeta.
  change (indices 4) with [0; 1; 2; 3]. cbn [for_each].
  unfold launch_body at 1.
  change (splitString (S fuel) "" 4) with (Returned (@nil string)).
  cbn [bind]. unfold at_index at 1.
  destruct (reads 0 <? 0); [reflexivity|].
  destruct (Z.to_nat (reads 0)); reflexivity.
Qed.

Lemma main_short {C : Type} `{Cipher C} (cipher : C) (mode : CipherMode)
    (text : string) (fuel : nat) (reads : race) (sched : schedule) :
  0 < Z.of_nat (String.length text) < 4 ->
  main cipher mode text fuel reads sched = OutOfFuel.
Proof.
  intros Hshort. destruct (splitString_diverges text 4 Hshort) as [_ Hloop].
  unfold main, transform, launch. cbv zeta.
  cbn [indices Z.to_nat Pos.to_nat Pos.iter_op Nat.add seq map for_each].
  unfold launch_body at 1. rewrite Hloop. reflexivity.
Qed.

(** X10.  When the command line asks for neither help nor version, the
    input can be read and the cipher is constructed, but the text read
    holds fewer than four characters, the program writes nothing: on an
    empty text it indexes an empty vector (undefined behaviour), on one to
    three characters it never leaves [splitString]. *)
Theorem program_short_text {C : Type} `{Cipher C}
    (env : Program.Environment C) (cmdLineArgs : list string)
    (settings : Program.ProgramSettings) (content : string) (cipher : C) :
  Program.processCommandLine env cmdLineArgs Program.default_settings
  = Program.Parsed settings ->
  Program.helpRequested settings = false ->
  Program.versionRequested settings = false ->
  Program.input_stream env settings = Some content ->
  Program.cipherFactory env (Program.cipherType settings)
                        (Program.cipherKey settings) = Program.Made cipher ->
  let inputText := Program.read_text (Program.transformChar env) content in
  (String.length inputText = 0%nat ->
   forall fuel, Program.main env cmdLineArgs (S fuel) = Undefined)
  /\ ((0 < String.length inputText < 4)%nat ->
      forall fuel, Program.main env cmdLineArgs fuel = OutOfFuel).
Proof.
  intros Hparse Hhelp Hversion Hstream Hmade inputText.
  split; intros Hlen fuel; unfold Program.main;
    rewrite Hparse, Hhelp, Hversion, Hstream, Hmade; fold inputText.
  - destruct inputText; [|discriminate]. now rewrite main_empty.
  - rewrite main_short by lia. reflexivity.
Qed.

Lemma program_short_text_witness :
  Program.main
    {| Program.processCommandLine :=
         Program.processCommandLine Program.example_environment;
       Program.transformChar :=
         Program.transformChar Program.example_environment;
       Program.cipherFactory :=
         Program.cipherFactory Program.example_environment;
       Program.open_ifstream := fun _ => None;
       Program.cin := "  1 2 3  ";
       Program.open_ofstream := fun _ => true;
       Program.racing_i := fun i => i + 1;
       Program.wait_for := fun _ _ => ready |}
    ["mpags-cipher"; "-k"; "3"] 1
  = Undefined.
Proof.
  destruct (program_short_text
              {| Program.processCommandLine :=
                   Program.processCommandLine Program.example_environment;
                 Program.transformChar :=
                   Program.transformChar Program.example_environment;
                 Program.cipherFactory :=
                   Program.cipherFactory Program.example_environment;
                 Program.open_ifstream := fun _ => None;
                 Program.cin := "  1 2 3  ";
                 Program.open_ofstream := fun _ => true;
                 Program.racing_i := fun i => i + 1;
                 Program.wait_for := fun _ _ => ready |}
              ["mpags-cipher"; "-k"; "3"]
              {| Program.helpRequested := false;
                 Program.versionRequested := false;
                 Program.inputFile := ""; Program.outputFile := "";
                 Program.cipherKey := "3"; Program.cipherMode := Encrypt;
                 Program.cipherType := Caesar |}
              "  1 2 3  " (CaesarCipher 3)
              eq_refl eq_refl eq_refl eq_refl eq_refl) as [Hempty _].
  specialize (Hempty eq_refl 0%nat). exact Hempty.
Defined.

(** ** The cipher options *)





(** ** The run that writes a text *)


